(** * farmer_puzzle.c: a shallow embedding and its verification

    The solver of farmer_puzzle.c keeps a pool of candidate codes in a singly
    linked list threaded through the array [all_codes], prunes it after every
    guess and scores the survivors in worker threads.  This file embeds the
    functions of that program and proves (or refutes at a concrete input) the
    properties stated about them.

    C [int] values are integers of [Z].  The program can only run when the
    number of codes, [DIGITS ^ CODE_LENGTH], fits an [int] (it allocates a
    node for each); the counters of the embedded functions are then bounded
    by the code length or by that number, so no wrap-around is modelled.
    Memory is explicit: an array is a list with checked accesses, a pointer
    into [all_codes] is an optional index, and any access the C standard
    leaves undefined (out of bounds, through NULL) is the outcome [Fault]. *)

From stdpp Require Import base numbers decidable option list list_numbers.
From stdpp Require Import strings pretty.

Local Open Scope Z_scope.

(** ** Outcomes of running a piece of C *)

Inductive result (A : Type) : Type :=
  | Ok (a : A)      (* the code returns [a] *)
  | Fault           (* undefined behaviour: out-of-bounds or NULL access *)
  | OutOfFuel.      (* a list walk met more nodes than [all_codes] holds *)
Arguments Ok {A} a.
Arguments Fault {A}.
Arguments OutOfFuel {A}.

#[global] Instance result_ret : MRet result := λ A a, Ok a.
#[global] Instance result_bind : MBind result := λ A B f r,
  match r with
  | Ok a => f a
  | Fault => Fault
  | OutOfFuel => OutOfFuel
  end.

(** ** Arrays with checked accesses *)

Definition array_get {A} (a : list A) (i : Z) : result A :=
  if decide (0 ≤ i) then
    match a !! Z.to_nat i with
    | Some x => Ok x
    | None => Fault
    end
  else Fault.

Definition array_set {A} (a : list A) (i : Z) (x : A) : result (list A) :=
  if decide (0 ≤ i < Z.of_nat (length a)) then Ok (<[Z.to_nat i := x]> a)
  else Fault.

(** [a[i]++] *)
Definition array_incr (a : list Z) (i : Z) : result (list Z) :=
  x ← array_get a i; array_set a i (x + 1).

(** [calloc(n, sizeof(int))] *)
Definition calloc (n : Z) : list Z := replicate (Z.to_nat n) 0.

(** A [for] loop whose body may fault, run over the listed values of its
    counter. *)
Fixpoint foldM {A S} (body : A → S → result S) (l : list A) (s : S) : result S :=
  match l with
  | [] => Ok s
  | i :: l' => s' ← body i s; foldM body l' s'
  end.

(** [for (int i = 0; i < n; i++) body] *)
Definition for_range {S} (n : Z) (body : Z → S → result S) (s : S) : result S :=
  foldM body (seqZ 0 n) s.

(** The macro [min(a, b)], which is [(a < b ? a : b)]. *)
Definition min_macro (a b : Z) : Z := if a <? b then a else b.

Definition sumZ (l : list Z) : Z := foldr Z.add 0 l.

(** ** Data of the program *)

(** A code is an array of [CODE_LENGTH] digits, each in [0, DIGITS). *)
Definition Code := list Z.

Record Offer := mkOffer { goats : Z; chickens : Z }.

#[global] Instance Offer_eq_dec : EqDecision Offer.
Proof. solve_decision. Defined.

Record Partition := mkPartition { index : Z; size : Z }.

(** A node of the candidate list; [next] is a pointer into [all_codes], held
    as the index of the node it points to, [None] for NULL. *)
Record CodeNode := mkNode { code : Code; next : option nat }.

(** The globals the functions share: the node array and the list head. *)
Record Pool := mkPool { all_codes : list CodeNode; possible_codes : option nat }.

Section Puzzle.

(** The program arguments, constant during a run.  [main] accepts them
    only when they are positive. *)
Variables DIGITS CODE_LENGTH : Z.

(** *** [int_to_code] *)

(** The [while (num != 0)] loop.  [k] is [index + 1]: each round lowers
    [index] by one, and a round entered at [index = -1] writes before the
    start of the array. *)
Fixpoint int_to_code_loop (k : nat) (num : Z) (c : Code) : result Code :=
  if decide (num = 0) then Ok c
  else match k with
       | O => Fault
       | S k' =>
           c' ← array_set c (Z.of_nat k') (Z.rem num DIGITS);
           int_to_code_loop k' (Z.quot num DIGITS) c'
       end.

Definition int_to_code (num : Z) : result Code :=
  int_to_code_loop (Z.to_nat CODE_LENGTH) num (calloc CODE_LENGTH).

(** *** [make_guess] *)

Definition count_digits (guess c : Code) (i : Z) (st : Z * list Z * list Z)
  : result (Z * list Z * list Z) :=
  let '(goats, guess_digits, code_digits) := st in
  gi ← array_get guess i;
  ci ← array_get c i;
  if decide (gi = ci) then Ok (goats + 1, guess_digits, code_digits)
  else
    guess_digits' ← array_incr guess_digits gi;
    code_digits' ← array_incr code_digits ci;
    Ok (goats, guess_digits', code_digits').

Definition sum_chickens (guess_digits code_digits : list Z) (i : Z) (chickens : Z)
  : result Z :=
  x ← array_get guess_digits i;
  y ← array_get code_digits i;
  Ok (chickens + min_macro x y).

Definition make_guess (guess c : Code) : result Offer :=
  st ← for_range CODE_LENGTH (count_digits guess c) (0, calloc DIGITS, calloc DIGITS);
  let '(goats, guess_digits, code_digits) := st in
  chickens ← for_range DIGITS (sum_chickens guess_digits code_digits) 0;
  Ok (mkOffer goats chickens).


(** *** The candidate list *)

(** [all_codes[i]], read through a pointer to node [i]. *)
Definition node_at (pool : Pool) (i : nat) : result CodeNode :=
  match all_codes pool !! i with
  | Some nd => Ok nd
  | None => Fault
  end.

(** [p->next = nx], where [p] may be NULL. *)
Definition set_next (pool : Pool) (p : option nat) (nx : option nat) : result Pool :=
  match p with
  | None => Fault
  | Some i =>
      nd ← node_at pool i;
      Ok (mkPool (<[i := mkNode (code nd) nx]> (all_codes pool)) (possible_codes pool))
  end.

(** *** [remove_impossible_codes] *)

(** The loop that sets [code_is_guess], leaving at the first difference. *)
Fixpoint code_is_guess_loop (positions : list Z) (guess curr_code : Code) : result bool :=
  match positions with
  | [] => Ok true
  | i :: positions' =>
      gi ← array_get guess i;
      ci ← array_get curr_code i;
      if decide (gi ≠ ci) then Ok false
      else code_is_guess_loop positions' guess curr_code
  end.

Definition code_is_guess (guess curr_code : Code) : result bool :=
  code_is_guess_loop (seqZ 0 CODE_LENGTH) guess curr_code.

(** The [while (curr != NULL)] loop, on the state [(pool, prev, count)]. *)
Fixpoint remove_loop (fuel : nat) (guess : Code) (offer : Offer)
    (pool : Pool) (prev curr : option nat) (possible_code_count : Z)
  : result (Pool * option nat * Z) :=
  match curr with
  | None => Ok (pool, prev, possible_code_count)
  | Some c =>
      match fuel with
      | O => OutOfFuel
      | S fuel' =>
          nd ← node_at pool c;
          let curr_code := code nd in
          possible_offer ← make_guess guess curr_code;
          is_guess ← code_is_guess guess curr_code;
          if decide (goats possible_offer ≠ goats offer
                     ∨ chickens possible_offer ≠ chickens offer
                     ∨ is_guess = true)
          then
            pool' ← (if decide (curr = possible_codes pool)
                     then Ok (mkPool (all_codes pool) (next nd))
                     else set_next pool prev (next nd));
            nd' ← node_at pool' c;
            remove_loop fuel' guess offer pool' prev (next nd') possible_code_count
          else
            remove_loop fuel' guess offer pool (Some c) (next nd)
                        (possible_code_count + 1)
      end
  end.

Definition remove_impossible_codes (pool : Pool) (guess : Code) (offer : Offer)
  : result (Pool * Z) :=
  st ← remove_loop (length (all_codes pool)) guess offer pool None
                   (possible_codes pool) 0;
  let '(pool', prev, possible_code_count) := st in
  pool'' ← set_next pool' prev None;
  Ok (pool'', possible_code_count).

(** *** [worker] *)

(** [pow(DIGITS, CODE_LENGTH)].  The program narrows it to [int], which is
    defined for values up to [INT_MAX] only; this is its value there. *)
Definition CODE_COUNT : Z := DIGITS ^ CODE_LENGTH.

(** The place of an offer in [offer_results]. *)
Definition offer_index (offer : Offer) : Z :=
  goats offer * CODE_LENGTH + chickens offer.

(** The loop over [possible_codes] that counts the offers of one guess. *)
Fixpoint tally_loop (fuel : nat) (pool : Pool) (guess_code : Code)
    (curr_code : option nat) (offer_results : list Z) : result (list Z) :=
  match curr_code with
  | None => Ok offer_results
  | Some c =>
      match fuel with
      | O => OutOfFuel
      | S fuel' =>
          nd ← node_at pool c;
          offer ← make_guess guess_code (code nd);
          offer_results' ← array_incr offer_results (offer_index offer);
          tally_loop fuel' pool guess_code (next nd) offer_results'
      end
  end.

(** One round of the loop that reads and clears [offer_results]. *)
Definition min_step (i : Z) (st : Z * list Z) : result (Z * list Z) :=
  let '(min_removed, offer_results) := st in
  r ← array_get offer_results i;
  offer_results' ← array_set offer_results i 0;
  if decide (r = 0) then Ok (min_removed, offer_results')
  else Ok (min_macro r min_removed, offer_results').

(** The score [min_removed] that the worker gives to one guess, with the
    table as the worker leaves it. *)
Definition score_guess (pool : Pool) (guess_code : Code) (offer_results : list Z)
  : result (Z * list Z) :=
  offer_results' ← tally_loop (length (all_codes pool)) pool guess_code
                              (possible_codes pool) offer_results;
  for_range (CODE_LENGTH * CODE_LENGTH) min_step (CODE_COUNT, offer_results').

(** The [while (codes_checked < size)] loop; [n] is [size - codes_checked]. *)
Fixpoint worker_loop (n : nat) (pool : Pool) (score : Z)
    (best_guess curr_guess : option nat) (offer_results : list Z)
  : result (Z * option nat) :=
  match n with
  | O => Ok (score, best_guess)
  | S n' =>
      match curr_guess with
      | None => Ok (score, best_guess)
      | Some g =>
          nd ← node_at pool g;
          '(min_removed, offer_results') ← score_guess pool (code nd) offer_results;
          if decide (min_removed > score)
          then worker_loop n' pool min_removed (Some g) (next nd) offer_results'
          else worker_loop n' pool score best_guess (next nd) offer_results'
      end
  end.

(** The best next guess and its score, guarded by [next_guess_lock]. *)
Record Shared := mkShared { next_guess : option Code; next_guess_score : Z }.

(** A worker reads the pool only, and touches [Shared] once, inside the
    lock: a run of a worker is a function from [Shared] to [Shared]. *)
Definition worker (pool : Pool) (partition : Partition) (shared : Shared)
  : result Shared :=
  curr_guess ← (if decide (0 ≤ index partition)
                then Ok (Some (Z.to_nat (index partition))) else Fault);
  '(score, best_guess) ←
    worker_loop (Z.to_nat (size partition)) pool 0 None curr_guess
                (calloc (CODE_LENGTH * CODE_LENGTH));
  if decide (score > next_guess_score shared) then
    match best_guess with
    | None => Fault
    | Some b => nd ← node_at pool b; Ok (mkShared (Some (code nd)) score)
    end
  else Ok shared.

(** *** [main] *)

(** The candidate list as [main] builds it: node [i] holds the code of [i]
    and points to node [i + 1], the last one to NULL. *)
Definition init_node (i : Z) (nodes : list CodeNode) : result (list CodeNode) :=
  c ← int_to_code i;
  Ok (nodes ++ [mkNode c (if decide (i = CODE_COUNT - 1) then None
                          else Some (Z.to_nat (i + 1)))]).

Definition init_pool : result Pool :=
  nodes ← for_range CODE_COUNT init_node [];
  Ok (mkPool nodes (Some O)).

(** The size [main] gives to the partition of thread [thread]. *)
Definition partition_size (possible_code_count THREADS thread : Z) : Z :=
  let codes_per_thread := Z.quot possible_code_count THREADS in
  min_macro possible_code_count ((thread + 1) * codes_per_thread)
  - thread * codes_per_thread.

(** [curr_code = curr_code->next], [steps] times. *)
Fixpoint walk (steps : nat) (pool : Pool) (curr_code : option nat)
  : result (option nat) :=
  match steps with
  | O => Ok curr_code
  | S k =>
      match curr_code with
      | None => Fault
      | Some c => nd ← node_at pool c; walk k pool (next nd)
      end
  end.

(** One round of the loop that fills [partitions]; [curr_code - all_codes]
    is defined for a pointer into [all_codes] only. *)
Definition make_partition (pool : Pool) (possible_code_count THREADS : Z)
    (thread : Z) (st : list Partition * option nat)
  : result (list Partition * option nat) :=
  let '(partitions, curr_code) := st in
  let codes_per_thread := Z.quot possible_code_count THREADS in
  idx ← match curr_code with
        | Some c => Ok (Z.of_nat c)
        | None => Fault
        end;
  let p := mkPartition idx (partition_size possible_code_count THREADS thread) in
  curr_code' ← (if decide (thread < THREADS - 1)
                then walk (Z.to_nat codes_per_thread) pool curr_code
                else Ok curr_code);
  Ok (partitions ++ [p], curr_code').

Definition make_partitions (pool : Pool) (possible_code_count THREADS : Z)
  : result (list Partition) :=
  st ← for_range THREADS (make_partition pool possible_code_count THREADS)
                 ([], possible_codes pool);
  Ok st.1.

(** What one round of the main loop leaves: the offer it printed, and
    either the end of the session or the state of the next round. *)
Inductive Round :=
  | Solved (offer : Offer)
  | Next (offer : Offer) (pool : Pool) (shared : Shared) (guess : Code).

(** One round of [while (TRUE)].  The workers only read the pool and each
    updates [Shared] in one critical section, so a round is a run of the
    workers one after the other in some order; [schedule] is that order,
    given as the list of thread numbers.  A code pointer is held as the
    code it points to, so taking a NULL [next_guess] as the guess is
    already a fault here; the program would fault on its first use. *)
Definition main_round (THREADS : Z) (schedule : list nat)
    (secret : Code) (pool : Pool) (shared : Shared) (guess : Code)
  : result Round :=
  offer ← make_guess guess secret;
  if decide (goats offer = CODE_LENGTH) then Ok (Solved offer)
  else
    '(pool', possible_code_count) ← remove_impossible_codes pool guess offer;
    partitions ← make_partitions pool' possible_code_count THREADS;
    shared' ← foldM (λ t sh, match partitions !! t with
                             | Some p => worker pool' p sh
                             | None => Fault
                             end) schedule shared;
    if decide (next_guess_score shared' = 0) then
      match possible_codes pool' with
      | None => Fault
      | Some h => nd ← node_at pool' h; Ok (Next offer pool' shared' (code nd))
      end
    else
      match next_guess shared' with
      | None => Fault
      | Some g => Ok (Next offer pool' (mkShared (next_guess shared') 0) g)
      end.

End Puzzle.

(** ** The words of the specification

    The definitions below state what the specification says, independently
    of how the code computes it. *)

(** Position [i] holds the same symbol in both sequences. *)
Definition exact_at (s t : Code) (i : Z) : Prop :=
  s !! Z.to_nat i = t !! Z.to_nat i.

(** Position [i] of [s] holds [v] and is not an exact position. *)
Definition remains_at (s t : Code) (v : Z) (i : Z) : Prop :=
  ¬ exact_at s t i ∧ s !! Z.to_nat i = Some v.

#[global] Instance exact_at_dec s t i : Decision (exact_at s t i).
Proof. unfold exact_at. apply _. Defined.

#[global] Instance remains_at_dec s t v i : Decision (remains_at s t v i).
Proof. unfold remains_at. apply _. Defined.

#[global] Instance result_eq_dec {A} `{EqDecision A} : EqDecision (result A).
Proof. solve_decision. Defined.

Section Specification.

Variables DIGITS CODE_LENGTH : Z.

(** A sequence of [CODE_LENGTH] symbols, all in [0, DIGITS). *)
Definition valid_code (s : Code) : Prop :=
  Z.of_nat (length s) = CODE_LENGTH ∧ Forall (λ x, 0 ≤ x < DIGITS) s.

Definition count_exact (s t : Code) (ps : list Z) : Z :=
  Z.of_nat (length (filter (exact_at s t) ps)).

Definition count_remaining (s t : Code) (v : Z) (ps : list Z) : Z :=
  Z.of_nat (length (filter (remains_at s t v) ps)).

(** The number of positions where guess and target hold the same symbol. *)
Definition exact_matches (guess target : Code) : Z :=
  count_exact guess target (seqZ 0 CODE_LENGTH).

(** The number of non-exact positions of [s] that hold [v]. *)
Definition remaining_count (s t : Code) (v : Z) : Z :=
  count_remaining s t v (seqZ 0 CODE_LENGTH).

(** The sum over each symbol value of the smaller remaining count. *)
Definition partial_matches (guess target : Code) : Z :=
  sumZ ((λ v, Z.min (remaining_count guess target v)
                    (remaining_count target guess v)) <$> seqZ 0 DIGITS).

(** A sequence read as a number in base [DIGITS], most significant digit
    first. *)
Definition code_to_int (s : Code) : Z :=
  fold_left (λ acc d, acc * DIGITS + d) s 0.

(** A candidate stays in the pool: it gives the observed offer against
    the guess and is not the guess. *)
Definition survives (guess : Code) (offer : Offer) (c : Code) : Prop :=
  make_guess DIGITS CODE_LENGTH guess c = Ok offer ∧ c ≠ guess.

(** The offers of a guess against every candidate, and the score of the
    specification: the least count among the offers that occur. *)
Fixpoint offers_of (guess : Code) (candidates : list Code) : result (list Offer) :=
  match candidates with
  | [] => Ok []
  | c :: cs =>
      o ← make_guess DIGITS CODE_LENGTH guess c;
      os ← offers_of guess cs;
      Ok (o :: os)
  end.

Definition bucket_count (os : list Offer) (o : Offer) : Z :=
  Z.of_nat (length (filter (λ o', o' = o) os)).

Definition min_nonzero_bucket (os : list Offer) : option Z :=
  match bucket_count os <$> os with
  | [] => None
  | n :: ns => Some (foldr Z.min n ns)
  end.

End Specification.

(** ** The candidate list as a sequence of nodes *)

(** [lseg nodes p l q]: following [next] from [p] visits the nodes [l] and
    arrives at [q]. *)
Fixpoint lseg (nodes : list CodeNode) (p : option nat) (l : list nat)
    (q : option nat) : Prop :=
  match l with
  | [] => p = q
  | i :: l' => p = Some i ∧ ∃ nd, nodes !! i = Some nd ∧ lseg nodes (next nd) l' q
  end.

(** The nodes of the list that starts at [p], in order, by a walk of at most
    [fuel] steps. *)
Fixpoint walk_list (fuel : nat) (nodes : list CodeNode) (p : option nat)
  : result (list nat) :=
  match p with
  | None => Ok []
  | Some i =>
      match fuel with
      | O => OutOfFuel
      | S fuel' =>
          match nodes !! i with
          | None => Fault
          | Some nd => l ← walk_list fuel' nodes (next nd); Ok (i :: l)
          end
      end
  end.

(** The nodes of [possible_codes]. *)
Definition pool_nodes (pool : Pool) : result (list nat) :=
  walk_list (length (all_codes pool)) (all_codes pool) (possible_codes pool).

Definition code_of (nodes : list CodeNode) (i : nat) : Code :=
  default [] (code <$> nodes !! i).

(** The remaining candidates, in list order. *)
Definition remaining (pool : Pool) : result (list Code) :=
  pool_nodes pool ≫= λ l : list nat, Ok (code_of (all_codes pool) <$> l).

#[global] Instance survives_dec D L guess offer c : Decision (survives D L guess offer c).
Proof. unfold survives. apply _. Defined.

(** The node [i] holds a code that stays in the pool; [cof] gives the code
    of a node. *)
Definition keeps (D L : Z) (guess : Code) (offer : Offer) (cof : nat → Code)
    (i : nat) : Prop :=
  survives D L guess offer (cof i).

#[global] Instance keeps_dec D L guess offer cof i : Decision (keeps D L guess offer cof i).
Proof. unfold keeps. apply _. Defined.

(** ** Invariants of the loops *)

(** Every listed position holds a symbol of [s], in range. *)
Definition positions_ok (DIGITS : Z) (s : Code) (ps : list Z) : Prop :=
  ∀ i, i ∈ ps → 0 ≤ i ∧ ∃ x, s !! Z.to_nat i = Some x ∧ 0 ≤ x < DIGITS.

(** The digit counters after the first loop of [make_guess]: every cell has
    grown by the number of non-exact positions that hold its symbol. *)
Definition counted (s t : Code) (ps : list Z) (a a' : list Z) : Prop :=
  length a' = length a ∧
  ∀ v : nat, a' !! v = (λ x, x + count_remaining s t (Z.of_nat v) ps) <$> a !! v.

Definition count_nonexact (s t : Code) (ps : list Z) : Z :=
  Z.of_nat (length (filter (λ i, ¬ exact_at s t i) ps)).

(** ** The partitions as [main] lays them on the list

    [l] is the list of the remaining nodes and [T] the number of threads. *)

(** The share of a thread: [possible_code_count / THREADS] nodes. *)
Definition share (l : list nat) (T : Z) : nat :=
  Z.to_nat (Z.of_nat (length l) `div` T).

(** The partition of thread [t]: it starts [t] shares into the list. *)
Definition nth_partition (l : list nat) (T : Z) (t : nat) : Partition :=
  mkPartition (Z.of_nat (default O (l !! (t * share l T)%nat)))
              (Z.of_nat (length l) `div` T).

(** ** Pools used as concrete inputs *)

(** All codes of one digit in base 4, after the guess [0] was answered with
    no goat and no chicken: [1], [2] and [3] remain. *)
Definition pool_d4 : Pool :=
  mkPool [mkNode [0] (Some 1%nat); mkNode [1] (Some 2%nat);
          mkNode [2] (Some 3%nat); mkNode [3] None] (Some 1%nat).

(** All codes of one digit in base 6, after the guess [0] was answered with
    no goat and no chicken: five codes remain. *)
Definition pool_d6 : Pool :=
  mkPool [mkNode [0] (Some 1%nat); mkNode [1] (Some 2%nat);
          mkNode [2] (Some 3%nat); mkNode [3] (Some 4%nat);
          mkNode [4] (Some 5%nat); mkNode [5] None] (Some 1%nat).

(** The codes of one digit in base 2, of which only [0] remains. *)
Definition pool_only_0 : Pool :=
  mkPool [mkNode [0] None; mkNode [1] None] (Some 0%nat).

(** All codes of two digits in base 2. *)
Definition pool_d2_l2 : Pool :=
  mkPool [mkNode [0; 0] (Some 1%nat); mkNode [0; 1] (Some 2%nat);
          mkNode [1; 0] (Some 3%nat); mkNode [1; 1] None] (Some 0%nat).

(** ** The universe of codes *)

(** The largest [int]. *)
Definition INT_MAX : Z := 2147483647.

(** The code of the number [i], as [int_to_code] writes it. *)
Definition code_at (DIGITS CODE_LENGTH : Z) (i : Z) : Code :=
  match int_to_code DIGITS CODE_LENGTH i with
  | Ok c => c
  | _ => []
  end.

(** The codes of [0], [1], ... up to the last number below
    [DIGITS ^ CODE_LENGTH], in this order. *)
Definition universe (DIGITS CODE_LENGTH : Z) : list Code :=
  (λ i : nat, code_at DIGITS CODE_LENGTH (Z.of_nat i))
  <$> seq 0 (Z.to_nat (CODE_COUNT DIGITS CODE_LENGTH)).

(** Node [i] of [all_codes] as [main] fills it. *)
Definition init_node_at (DIGITS CODE_LENGTH : Z) (i : nat) : CodeNode :=
  mkNode (code_at DIGITS CODE_LENGTH (Z.of_nat i))
         (if decide (Z.of_nat i = CODE_COUNT DIGITS CODE_LENGTH - 1) then None
          else Some (S i)).

(** ** The session *)

(** The loop of [main]: the guesses played, each with the offer printed
    for it.  Every round takes the order in which its workers reach the
    lock from [schedules]; the loop is cut off when the orders run out. *)
Fixpoint main_loop (DIGITS CODE_LENGTH THREADS : Z) (schedules : list (list nat))
    (secret : Code) (pool : Pool) (shared : Shared) (guess : Code)
  : result (list (Code * Offer)) :=
  match schedules with
  | [] => OutOfFuel
  | schedule :: schedules' =>
      r ← main_round DIGITS CODE_LENGTH THREADS schedule secret pool shared guess;
      match r with
      | Solved offer => Ok [(guess, offer)]
      | Next offer pool' shared' guess' =>
          rest ← main_loop DIGITS CODE_LENGTH THREADS schedules' secret pool' shared' guess';
          Ok ((guess, offer) :: rest)
      end
  end.

(** [main] after the options are read: [secret_num] is the number read
    from the input line, as the [int] that [main] makes of it. *)
Definition main (DIGITS CODE_LENGTH THREADS INITIAL_GUESS : Z)
    (schedules : list (list nat)) (secret_num : Z) : result (list (Code * Offer)) :=
  secret ← int_to_code DIGITS CODE_LENGTH secret_num;
  pool ← init_pool DIGITS CODE_LENGTH;
  guess ← int_to_code DIGITS CODE_LENGTH INITIAL_GUESS;
  main_loop DIGITS CODE_LENGTH THREADS schedules secret pool (mkShared None 0) guess.

(** Every thread number of the order is one of the [THREADS] threads. *)
Definition schedule_ok (THREADS : Z) (schedule : list nat) : Prop :=
  Forall (λ t : nat, Z.of_nat t < THREADS) schedule.

(** ** [print_code] *)

(** One round of the loop of [print_code]: [out] is what was written so
    far; [pretty] writes an integer in decimal, as [printf("%i")] does. *)
Definition print_digit (DIGITS CODE_LENGTH : Z) (c : Code) (i : Z) (out : string)
  : result string :=
  d ← array_get c i;
  let out' := out +:+ pretty d in
  if decide (DIGITS > 10 ∧ i ≠ CODE_LENGTH - 1) then Ok (out' +:+ "-")
  else Ok out'.

(** What [print_code] writes to the standard output. *)
Definition print_code (DIGITS CODE_LENGTH : Z) (c : Code) : result string :=
  for_range CODE_LENGTH (print_digit DIGITS CODE_LENGTH c) "".

(** The digits of a code as characters, one for each. *)
Definition digits_string (c : Code) : string :=
  foldr (λ d s, String (pretty_N_char (Z.to_N d)) s) "" c.

(** * Proofs *)

(** ** Outcomes and arrays *)

Lemma result_bind_Ok {A B} (f : A → result B) (r : result A) (b : B) :
  r ≫= f = Ok b ↔ ∃ a, r = Ok a ∧ f a = Ok b.
Proof.
  destruct r as [a| |]; simpl; split.
  - intros Hf. by exists a.
  - by intros (a' & [= <-] & Hf).
  - discriminate.
  - by intros (a' & [=] & _).
  - discriminate.
  - by intros (a' & [=] & _).
Qed.

Lemma bind_Ok {A B} (f : A → result B) (a : A) : Ok a ≫= f = f a.
Proof. reflexivity. Qed.

Lemma foldM_cons {A S} (body : A → S → result S) i l s :
  foldM body (i :: l) s = body i s ≫= foldM body l.
Proof. reflexivity. Qed.

Lemma min_macro_min a b : min_macro a b = Z.min a b.
Proof. unfold min_macro. destruct (Z.ltb_spec a b); lia. Qed.

Lemma array_get_Ok {A} (a : list A) (i : Z) (x : A) :
  0 ≤ i → a !! Z.to_nat i = Some x → array_get a i = Ok x.
Proof. intros Hi Hx. unfold array_get. rewrite decide_True by done. by rewrite Hx. Qed.

Lemma array_set_Ok {A} (a : list A) (i : Z) (x y : A) :
  0 ≤ i → a !! Z.to_nat i = Some y → array_set a i x = Ok (<[Z.to_nat i := x]> a).
Proof.
  intros Hi Hy. unfold array_set. apply lookup_lt_Some in Hy.
  rewrite decide_True; [done | lia].
Qed.

Lemma array_incr_Ok (a : list Z) (i x : Z) :
  0 ≤ i → a !! Z.to_nat i = Some x →
  array_incr a i = Ok (<[Z.to_nat i := x + 1]> a).
Proof.
  intros Hi Hx. unfold array_incr. rewrite (array_get_Ok a i x) by done.
  simpl. by apply array_set_Ok with x.
Qed.

Lemma sumZ_app l1 l2 : sumZ (l1 ++ l2) = sumZ l1 + sumZ l2.
Proof. induction l1 as [|x l1 IH]; simpl; [done | rewrite IH; lia]. Qed.

Lemma foldM_app {A S} (body : A → S → result S) l1 l2 s :
  foldM body (l1 ++ l2) s = foldM body l1 s ≫= foldM body l2.
Proof.
  revert s. induction l1 as [|x l1 IH]; intros s; simpl; [done|].
  destruct (body x s) as [s'| |]; simpl; [apply IH | done | done].
Qed.

(** ** [make_guess] computes the offer of the specification *)

Section MakeGuess.

Variables DIGITS CODE_LENGTH : Z.

Lemma valid_positions_ok s :
  valid_code DIGITS CODE_LENGTH s → positions_ok DIGITS s (seqZ 0 CODE_LENGTH).
Proof.
  intros [Hlen Hall] i Hi. apply elem_of_seqZ in Hi. split; [lia|].
  destruct (lookup_lt_is_Some_2 s (Z.to_nat i)) as [x Hx]; [lia|].
  exists x. split; [done|].
  by apply (Forall_lookup_1 _ _ _ _ Hall Hx).
Qed.

Lemma positions_ok_cons s i ps :
  positions_ok DIGITS s (i :: ps) →
  (0 ≤ i ∧ ∃ x, s !! Z.to_nat i = Some x ∧ 0 ≤ x < DIGITS)
  ∧ positions_ok DIGITS s ps.
Proof.
  intros H. split; [apply H; left|].
  intros j Hj. apply H. by right.
Qed.

Lemma count_exact_cons s t i ps :
  count_exact s t (i :: ps) =
  (if decide (exact_at s t i) then 1 else 0) + count_exact s t ps.
Proof.
  unfold count_exact. rewrite filter_cons.
  destruct (decide (exact_at s t i)); simpl; lia.
Qed.

Lemma count_remaining_cons s t v i ps :
  count_remaining s t v (i :: ps) =
  (if decide (remains_at s t v i) then 1 else 0) + count_remaining s t v ps.
Proof.
  unfold count_remaining. rewrite filter_cons.
  destruct (decide (remains_at s t v i)); simpl; lia.
Qed.

Lemma counted_nil s t a : counted s t [] a a.
Proof.
  split; [done|]. intros v. unfold count_remaining. simpl.
  destruct (a !! v); simpl; [f_equal; lia | done].
Qed.

Lemma exact_at_sym s t i : exact_at s t i ↔ exact_at t s i.
Proof. unfold exact_at. split; congruence. Qed.

(** One more non-exact position [i], holding [x] in [s]. *)
Lemma counted_step s t i ps (x : Z) a a' :
  0 ≤ x → s !! Z.to_nat i = Some x → ¬ exact_at s t i →
  counted s t ps (<[Z.to_nat x := default 0 (a !! Z.to_nat x) + 1]> a) a' →
  counted s t (i :: ps) a a'.
Proof.
  intros Hx Hs Hne [Hlen Hc]. split; [by rewrite Hlen, length_insert|].
  intros v. rewrite Hc, count_remaining_cons.
  destruct (decide (v = Z.to_nat x)) as [->|Hv].
  - rewrite Z2Nat.id by done.
    rewrite decide_True by (by split).
    destruct (a !! Z.to_nat x) as [y|] eqn:Hy.
    + rewrite list_lookup_insert_eq by (by eapply lookup_lt_Some).
      simpl. f_equal. lia.
    + rewrite list_insert_ge by (by apply lookup_ge_None). by rewrite Hy.
  - rewrite list_lookup_insert_ne by done.
    rewrite decide_False; [destruct (a !! v); simpl; [f_equal; lia | done]|].
    intros [_ Hv']. rewrite Hs in Hv'. injection Hv' as ->.
    apply Hv. by rewrite Nat2Z.id.
Qed.

(** An exact position changes no counter. *)
Lemma counted_skip s t i ps a a' :
  exact_at s t i → counted s t ps a a' → counted s t (i :: ps) a a'.
Proof.
  intros He [Hlen Hc]. split; [done|].
  intros v. rewrite Hc, count_remaining_cons.
  rewrite decide_False; [done|]. by intros [Hne _].
Qed.

Lemma count_digits_exact guess c i x goats gd cd :
  0 ≤ i → guess !! Z.to_nat i = Some x → c !! Z.to_nat i = Some x →
  count_digits guess c i (goats, gd, cd) = Ok (goats + 1, gd, cd).
Proof.
  intros Hi Hx Hy. unfold count_digits.
  rewrite (array_get_Ok guess i x), bind_Ok, (array_get_Ok c i x), bind_Ok by done.
  by rewrite decide_True.
Qed.

Lemma count_digits_other guess c i x y n m goats gd cd :
  0 ≤ i → guess !! Z.to_nat i = Some x → c !! Z.to_nat i = Some y → x ≠ y →
  0 ≤ x → 0 ≤ y → gd !! Z.to_nat x = Some n → cd !! Z.to_nat y = Some m →
  count_digits guess c i (goats, gd, cd)
  = Ok (goats, <[Z.to_nat x := n + 1]> gd, <[Z.to_nat y := m + 1]> cd).
Proof.
  intros Hi Hx Hy Hxy Hx0 Hy0 Hn Hm. unfold count_digits.
  rewrite (array_get_Ok guess i x), bind_Ok, (array_get_Ok c i y), bind_Ok by done.
  rewrite decide_False by done.
  by rewrite (array_incr_Ok gd x n), bind_Ok, (array_incr_Ok cd y m), bind_Ok.
Qed.

Lemma count_loop_spec guess c ps :
  positions_ok DIGITS guess ps → positions_ok DIGITS c ps →
  ∀ goats gd cd,
    length gd = Z.to_nat DIGITS → length cd = Z.to_nat DIGITS →
    ∃ gd' cd',
      foldM (count_digits guess c) ps (goats, gd, cd)
      = Ok (goats + count_exact guess c ps, gd', cd')
      ∧ counted guess c ps gd gd' ∧ counted c guess ps cd cd'.
Proof.
  induction ps as [|i ps IH]; intros Hg Hc goats gd cd Hgd Hcd.
  - exists gd, cd. simpl. unfold count_exact. simpl.
    rewrite Z.add_0_r. auto using counted_nil.
  - apply positions_ok_cons in Hg as [(Hi & x & Hx & Hxr) Hg].
    apply positions_ok_cons in Hc as [(_ & y & Hy & Hyr) Hc].
    rewrite foldM_cons, count_exact_cons.
    destruct (decide (x = y)) as [->|Hxy].
    + assert (exact_at guess c i) as He by (unfold exact_at; congruence).
      rewrite decide_True by done.
      rewrite (count_digits_exact guess c i y), bind_Ok by done.
      destruct (IH Hg Hc (goats + 1) gd cd Hgd Hcd) as (gd' & cd' & Hrun & H1 & H2).
      exists gd', cd'. rewrite Hrun. split; [f_equal; f_equal; f_equal; lia|].
      split; apply counted_skip; done || by apply exact_at_sym.
    + assert (¬ exact_at guess c i) as He by (unfold exact_at; congruence).
      rewrite decide_False by done.
      destruct (lookup_lt_is_Some_2 gd (Z.to_nat x)) as [n Hn]; [lia|].
      destruct (lookup_lt_is_Some_2 cd (Z.to_nat y)) as [m Hm]; [lia|].
      rewrite (count_digits_other guess c i x y n m), bind_Ok by (done || lia).
      destruct (IH Hg Hc goats (<[Z.to_nat x := n + 1]> gd)
                   (<[Z.to_nat y := m + 1]> cd)) as (gd' & cd' & Hrun & H1 & H2);
        [by rewrite length_insert | by rewrite length_insert |].
      exists gd', cd'. rewrite Hrun. split; [f_equal; f_equal; f_equal; lia|].
      split.
      * apply counted_step with x; [lia | done | done |]. by rewrite Hn.
      * apply counted_step with y; [lia | done | by rewrite <- exact_at_sym |].
        by rewrite Hm.
Qed.

Lemma sum_chickens_Ok gd cd i x y chickens :
  0 ≤ i → gd !! Z.to_nat i = Some x → cd !! Z.to_nat i = Some y →
  sum_chickens gd cd i chickens = Ok (chickens + Z.min x y).
Proof.
  intros Hi Hx Hy. unfold sum_chickens.
  rewrite (array_get_Ok gd i x), bind_Ok, (array_get_Ok cd i y), bind_Ok by done.
  by rewrite min_macro_min.
Qed.

Lemma sum_loop_spec gd cd (f h : Z → Z) vs :
  (∀ v, v ∈ vs →
        0 ≤ v ∧ gd !! Z.to_nat v = Some (f v) ∧ cd !! Z.to_nat v = Some (h v)) →
  ∀ chickens,
    foldM (sum_chickens gd cd) vs chickens
    = Ok (chickens + sumZ ((λ v, Z.min (f v) (h v)) <$> vs)).
Proof.
  induction vs as [|v vs IH]; intros Hvs chickens.
  - simpl. f_equal. lia.
  - destruct (Hvs v) as (Hv & Hg & Hc); [left|].
    rewrite foldM_cons, (sum_chickens_Ok gd cd v (f v) (h v)), bind_Ok by done.
    rewrite IH by (intros w Hw; apply Hvs; by right).
    f_equal. rewrite fmap_cons. simpl. lia.
Qed.

Lemma make_guess_eval guess c :
  valid_code DIGITS CODE_LENGTH guess → valid_code DIGITS CODE_LENGTH c →
  make_guess DIGITS CODE_LENGTH guess c
  = Ok (mkOffer (exact_matches CODE_LENGTH guess c)
                (partial_matches DIGITS CODE_LENGTH guess c)).
Proof.
  intros Hg Hc. unfold make_guess, for_range.
  destruct (count_loop_spec guess c (seqZ 0 CODE_LENGTH)
              (valid_positions_ok _ Hg) (valid_positions_ok _ Hc)
              0 (calloc DIGITS) (calloc DIGITS))
    as (gd & cd & Hrun & [Hlg Hgd] & [Hlc Hcd]);
    [apply length_replicate | apply length_replicate |].
  rewrite Hrun, bind_Ok.
  rewrite (sum_loop_spec gd cd (remaining_count CODE_LENGTH guess c)
                         (remaining_count CODE_LENGTH c guess)).
  - done.
  - intros v Hv. apply elem_of_seqZ in Hv. split; [lia|].
    rewrite Hgd, Hcd. unfold calloc.
    rewrite !lookup_replicate_2 by lia. simpl.
    rewrite Z2Nat.id by lia. done.
Qed.

End MakeGuess.

(** ** Bounds on the offer *)

Lemma sumZ_ext {A} (f g : A → Z) (l : list A) :
  (∀ x, x ∈ l → f x = g x) → sumZ (f <$> l) = sumZ (g <$> l).
Proof.
  induction l as [|x l IH]; intros H; [done|].
  rewrite !fmap_cons. simpl. rewrite (H x) by left.
  rewrite IH; [done|]. intros y Hy. apply H. by right.
Qed.

Lemma sumZ_plus {A} (f g : A → Z) (l : list A) :
  sumZ ((λ x, f x + g x) <$> l) = sumZ (f <$> l) + sumZ (g <$> l).
Proof.
  induction l as [|x l IH]; [done|].
  rewrite !fmap_cons. simpl. rewrite IH. lia.
Qed.

Lemma sumZ_zero {A} (l : list A) : sumZ ((λ _, 0) <$> l) = 0.
Proof. induction l as [|x l IH]; [done|]. rewrite fmap_cons. simpl. lia. Qed.

Lemma sumZ_le {A} (f g : A → Z) (l : list A) :
  (∀ x, f x ≤ g x) → sumZ (f <$> l) ≤ sumZ (g <$> l).
Proof.
  intros H. induction l as [|x l IH]; [done|].
  rewrite !fmap_cons. simpl. specialize (H x). lia.
Qed.

Lemma sumZ_nonneg {A} (f : A → Z) (l : list A) :
  (∀ x, 0 ≤ f x) → 0 ≤ sumZ (f <$> l).
Proof.
  intros H. induction l as [|x l IH]; [done|].
  rewrite !fmap_cons. simpl. specialize (H x). lia.
Qed.

(** A value occurs once among distinct values, or not at all. *)
Lemma sumZ_indicator (x : Z) (vs : list Z) :
  NoDup vs →
  sumZ ((λ v, if decide (x = v) then 1 else 0) <$> vs)
  = if decide (x ∈ vs) then 1 else 0.
Proof.
  induction 1 as [|v vs Hv Hnd IH]; [done|].
  rewrite fmap_cons. simpl. rewrite IH.
  destruct (decide (x = v)) as [->|Hxv].
  - rewrite decide_False by done. rewrite decide_True by left. done.
  - destruct (decide (x ∈ vs)) as [Hin|Hin].
    + rewrite decide_True by (by right). done.
    + rewrite decide_False; [done|]. by intros [?|?]%elem_of_cons.
Qed.

Lemma filter_all_length {A} (P : A → Prop) `{∀ x, Decision (P x)} (l : list A) :
  length (filter P l) = length l ↔ Forall P l.
Proof.
  induction l as [|x l IH].
  - split; [constructor | done].
  - rewrite filter_cons. destruct (decide (P x)) as [HP|HP]; simpl.
    + split.
      * intros [= Hl]. constructor; [done | by apply IH].
      * intros [_ Hl]%Forall_cons_1. f_equal. by apply IH.
    + pose proof (length_filter P l). split; [lia|].
      by intros [? _]%Forall_cons_1.
Qed.

Lemma filter_none {A} (P : A → Prop) `{∀ x, Decision (P x)} (l : list A) :
  (∀ x, x ∈ l → ¬ P x) → filter P l = [].
Proof.
  induction l as [|x l IH]; intros Hl; [done|].
  rewrite filter_cons_False by (apply Hl; left).
  apply IH. intros y Hy. apply Hl. by right.
Qed.

Section OfferBounds.

Variables DIGITS CODE_LENGTH : Z.

Lemma count_nonexact_cons s t i ps :
  count_nonexact s t (i :: ps) =
  (if decide (exact_at s t i) then 0 else 1) + count_nonexact s t ps.
Proof.
  unfold count_nonexact. rewrite filter_cons.
  destruct (decide (exact_at s t i)).
  - rewrite decide_False by auto. lia.
  - rewrite decide_True by done. simpl. lia.
Qed.

Lemma count_exact_nonexact s t ps :
  count_exact s t ps + count_nonexact s t ps = Z.of_nat (length ps).
Proof.
  induction ps as [|i ps IH]; [done|].
  rewrite count_exact_cons, count_nonexact_cons. simpl length.
  destruct (decide (exact_at s t i)); lia.
Qed.

Lemma count_exact_nonneg s t ps : 0 ≤ count_exact s t ps.
Proof. unfold count_exact. lia. Qed.

Lemma count_remaining_nonneg s t v ps : 0 ≤ count_remaining s t v ps.
Proof. unfold count_remaining. lia. Qed.

(** Every non-exact position is counted under exactly one symbol. *)
Lemma sum_count_remaining s t ps :
  positions_ok DIGITS s ps →
  sumZ ((λ v, count_remaining s t v ps) <$> seqZ 0 DIGITS) = count_nonexact s t ps.
Proof.
  induction ps as [|i ps IH]; intros Hps.
  - apply sumZ_zero.
  - apply positions_ok_cons in Hps as [(Hi & x & Hx & Hxr) Hps].
    rewrite (sumZ_ext _ (λ v, (if decide (remains_at s t v i) then 1 else 0)
                              + count_remaining s t v ps))
      by (intros v _; apply count_remaining_cons).
    rewrite sumZ_plus, IH, count_nonexact_cons by done. f_equal.
    destruct (decide (exact_at s t i)) as [He|He].
    + rewrite (sumZ_ext _ (λ _, 0)); [apply sumZ_zero|].
      intros v _. rewrite decide_False; [done|]. by intros [? _].
    + rewrite (sumZ_ext _ (λ v, if decide (x = v) then 1 else 0)).
      * rewrite sumZ_indicator by apply NoDup_seqZ.
        rewrite decide_True; [done|]. apply elem_of_seqZ. lia.
      * intros v _. destruct (decide (x = v)) as [->|Hxv].
        -- by rewrite decide_True.
        -- rewrite decide_False; [done|]. intros [_ Hv]. congruence.
Qed.

Lemma offer_bound guess c :
  valid_code DIGITS CODE_LENGTH guess →
  0 ≤ exact_matches CODE_LENGTH guess c
  ∧ 0 ≤ partial_matches DIGITS CODE_LENGTH guess c
  ∧ exact_matches CODE_LENGTH guess c + partial_matches DIGITS CODE_LENGTH guess c
    ≤ CODE_LENGTH.
Proof.
  intros Hg. pose proof (valid_positions_ok _ _ _ Hg) as Hps.
  destruct Hg as [Hlen _].
  unfold exact_matches, partial_matches, remaining_count.
  split; [apply count_exact_nonneg|]. split.
  - apply sumZ_nonneg. intros v.
    pose proof (count_remaining_nonneg guess c v (seqZ 0 CODE_LENGTH)).
    pose proof (count_remaining_nonneg c guess v (seqZ 0 CODE_LENGTH)). lia.
  - pose proof (count_exact_nonexact guess c (seqZ 0 CODE_LENGTH)) as Hsum.
    rewrite length_seqZ in Hsum.
    rewrite <- (sum_count_remaining guess c) in Hsum by done.
    pose proof (sumZ_le (λ v, Z.min (count_remaining guess c v (seqZ 0 CODE_LENGTH))
                                    (count_remaining c guess v (seqZ 0 CODE_LENGTH)))
                  (λ v, count_remaining guess c v (seqZ 0 CODE_LENGTH))
                  (seqZ 0 DIGITS)) as Hle.
    assert (0 ≤ CODE_LENGTH) by lia.
    specialize (Hle ltac:(intros; simpl; lia)). lia.
Qed.

(** *** All positions exact *)

Lemma exact_matches_all s t :
  Z.of_nat (length s) = CODE_LENGTH → Z.of_nat (length t) = CODE_LENGTH →
  exact_matches CODE_LENGTH s t = CODE_LENGTH ↔ s = t.
Proof.
  intros Hs Ht. unfold exact_matches, count_exact. split.
  - intros Hcount.
    assert (length (filter (exact_at s t) (seqZ 0 CODE_LENGTH))
            = length (seqZ 0 CODE_LENGTH)) as Hall
        by (rewrite length_seqZ; lia).
    apply filter_all_length in Hall. rewrite Forall_forall in Hall.
    apply list_eq. intros i.
    destruct (decide (i < length s)%nat) as [Hi|Hi].
    + specialize (Hall (Z.of_nat i)). unfold exact_at in Hall.
      rewrite Nat2Z.id in Hall. apply Hall, elem_of_seqZ. lia.
    + rewrite !lookup_ge_None_2; [done | lia | lia].
  - intros ->.
    assert (Forall (exact_at t t) (seqZ 0 CODE_LENGTH)) as Hall
        by (apply Forall_forall; intros i _; reflexivity).
    apply (filter_all_length (exact_at t t)) in Hall. rewrite Hall, length_seqZ. lia.
Qed.

Lemma partial_matches_self s : partial_matches DIGITS CODE_LENGTH s s = 0.
Proof.
  unfold partial_matches, remaining_count.
  rewrite (sumZ_ext _ (λ _, 0)); [apply sumZ_zero|].
  intros v _. unfold count_remaining.
  rewrite filter_none; [done|].
  intros i _ [Hne _]. by apply Hne.
Qed.

End OfferBounds.

(** ** [int_to_code] writes the base-[DIGITS] digits *)

Section IntToCode.

Variable DIGITS : Z.
Hypothesis DIGITS_pos : 0 < DIGITS.

Lemma code_to_int_snoc ds d :
  code_to_int DIGITS (ds ++ [d]) = code_to_int DIGITS ds * DIGITS + d.
Proof. unfold code_to_int. by rewrite fold_left_app. Qed.

Lemma code_to_int_zeros k : code_to_int DIGITS (replicate k 0) = 0.
Proof.
  unfold code_to_int.
  enough (∀ acc, acc = 0 →
            fold_left (λ acc d, acc * DIGITS + d) (replicate k 0) acc = 0) by auto.
  induction k as [|k IH]; intros acc ->; [done|].
  simpl. apply IH. lia.
Qed.

(** The loop entered with [index = k - 1], on a number of at most [k]
    digits and an array whose first [k] cells are still zero, fills these
    cells with the digits of the number and leaves the rest alone. *)
Lemma int_to_code_loop_spec k :
  ∀ num c,
    0 ≤ num < DIGITS ^ Z.of_nat k → (k ≤ length c)%nat →
    take k c = replicate k 0 →
    ∃ ds, int_to_code_loop DIGITS k num c = Ok (ds ++ drop k c)
          ∧ length ds = k
          ∧ Forall (λ x, 0 ≤ x < DIGITS) ds
          ∧ code_to_int DIGITS ds = num.
Proof.
  induction k as [|k IH]; intros num c Hnum Hlen Hzero.
  - assert (num = 0) as -> by (simpl in Hnum; lia).
    exists []. simpl. rewrite drop_0. repeat split; constructor.
  - destruct (decide (num = 0)) as [->|Hne].
    + exists (replicate (S k) 0).
      replace (int_to_code_loop DIGITS (S k) 0 c) with (Ok c : result Code)
        by (simpl; done).
      rewrite <- Hzero, take_drop, Hzero. split; [done|].
      split; [apply length_replicate|]. split; [|apply code_to_int_zeros].
      apply Forall_replicate. lia.
    + assert (Z.rem num DIGITS = num `mod` DIGITS) as Hrem
          by (apply Z.rem_mod_nonneg; lia).
      assert (Z.quot num DIGITS = num `div` DIGITS) as Hquot
          by (apply Z.quot_div_nonneg; lia).
      assert (0 ≤ num `mod` DIGITS < DIGITS) as Hmod by (apply Z.mod_pos_bound; lia).
      assert (0 ≤ num `div` DIGITS < DIGITS ^ Z.of_nat k) as Hdiv.
      { split; [apply Z.div_pos; lia|].
        apply Z.div_lt_upper_bound; [lia|].
        replace (Z.of_nat (S k)) with (Z.succ (Z.of_nat k)) in Hnum by lia.
        rewrite Z.pow_succ_r in Hnum by lia. lia. }
      destruct (lookup_lt_is_Some_2 c k) as [y Hy]; [lia|].
      destruct (IH (num `div` DIGITS) (<[k := num `mod` DIGITS]> c))
        as (ds & Hrun & Hds & Hall & Hval).
      * done.
      * rewrite length_insert. lia.
      * rewrite take_insert_ge by lia.
        replace (take k c) with (take k (take (S k) c))
          by (rewrite take_take; f_equal; lia).
        rewrite Hzero, take_replicate. f_equal. lia.
      * exists (ds ++ [num `mod` DIGITS]).
        replace (int_to_code_loop DIGITS (S k) num c)
          with (array_set c (Z.of_nat k) (Z.rem num DIGITS)
                ≫= int_to_code_loop DIGITS k (Z.quot num DIGITS))
          by (simpl; by rewrite decide_False).
        rewrite (array_set_Ok c (Z.of_nat k) _ y), bind_Ok
          by (lia || by rewrite Nat2Z.id).
        rewrite Nat2Z.id, Hrem, Hquot, Hrun.
        split; [|split; [|split]].
        -- f_equal. rewrite <- app_assoc. f_equal.
           rewrite (drop_S _ (num `mod` DIGITS) k)
             by (apply list_lookup_insert_eq; lia).
           simpl. f_equal. by rewrite drop_insert_lt by lia.
        -- rewrite length_app. simpl. lia.
        -- apply Forall_app. split; [done|]. constructor; [done | constructor].
        -- rewrite code_to_int_snoc, Hval.
           pose proof (Z.div_mod num DIGITS). lia.
Qed.

Lemma int_to_code_eval CODE_LENGTH num :
  0 ≤ num < DIGITS ^ CODE_LENGTH →
  ∃ c, int_to_code DIGITS CODE_LENGTH num = Ok c
       ∧ valid_code DIGITS CODE_LENGTH c
       ∧ code_to_int DIGITS c = num.
Proof.
  intros Hnum.
  assert (0 ≤ CODE_LENGTH) as HL.
  { destruct (decide (0 ≤ CODE_LENGTH)); [done|].
    rewrite Z.pow_neg_r in Hnum by lia. lia. }
  unfold int_to_code, calloc.
  destruct (int_to_code_loop_spec (Z.to_nat CODE_LENGTH) num
              (replicate (Z.to_nat CODE_LENGTH) 0))
    as (ds & Hrun & Hlen & Hall & Hval).
  - by rewrite Z2Nat.id.
  - by rewrite length_replicate.
  - rewrite take_ge; [done|]. by rewrite length_replicate.
  - exists ds. rewrite Hrun.
    rewrite drop_ge, app_nil_r by (by rewrite length_replicate).
    repeat split; [lia | done | done].
Qed.

End IntToCode.

(** ** The candidate list in memory *)

Lemma lseg_app nodes p l1 l2 q :
  lseg nodes p (l1 ++ l2) q ↔ ∃ r, lseg nodes p l1 r ∧ lseg nodes r l2 q.
Proof.
  revert p. induction l1 as [|i l1 IH]; intros p; simpl.
  - split; [intros H; by exists p | by intros (r & -> & H)].
  - split.
    + intros (-> & nd & Hnd & Hrest). apply IH in Hrest as (r & H1 & H2).
      exists r. split; [|done]. split; [done|]. by exists nd.
    + intros (r & (-> & nd & Hnd & H1) & H2). split; [done|].
      exists nd. split; [done|]. apply IH. by exists r.
Qed.

(** A NULL-terminated list is determined by its head. *)
Lemma lseg_functional nodes p l1 l2 :
  lseg nodes p l1 None → lseg nodes p l2 None → l1 = l2.
Proof.
  revert p l2. induction l1 as [|i l1 IH]; intros p [|j l2]; simpl.
  - done.
  - by intros -> [[=] _].
  - by intros [-> _] [=].
  - intros (-> & nd & Hnd & H1) ([= <-] & nd' & Hnd' & H2).
    rewrite Hnd in Hnd'. injection Hnd' as <-. f_equal. by eapply IH.
Qed.

(** It visits no node twice. *)
Lemma lseg_NoDup nodes p l : lseg nodes p l None → NoDup l.
Proof.
  revert p. induction l as [|i l IH]; intros p; [constructor|].
  intros (-> & nd & Hnd & Hl). apply NoDup_cons. split; [|by eapply IH].
  intros (l1 & l2 & ->)%list_elem_of_split.
  apply lseg_app in Hl as Hsplit. destruct Hsplit as (r & _ & Hr).
  assert (r = Some i) as -> by (by destruct Hr).
  assert (i :: l2 = i :: l1 ++ i :: l2) as Heq.
  { eapply lseg_functional; [exact Hr|]. simpl. split; [done|]. by exists nd. }
  apply (f_equal length) in Heq. simpl in Heq. rewrite length_app in Heq.
  simpl in Heq. lia.
Qed.

Lemma lseg_frame nodes nodes' p l q :
  (∀ i, i ∈ l → nodes' !! i = nodes !! i) →
  lseg nodes p l q → lseg nodes' p l q.
Proof.
  revert p. induction l as [|i l IH]; intros p Hsame; simpl; [done|].
  intros (-> & nd & Hnd & Hl). split; [done|]. exists nd. split.
  - rewrite Hsame; [done | left].
  - apply IH; [|done]. intros j Hj. apply Hsame. by right.
Qed.

(** [j->next = q'] on the last node of a segment redirects the segment. *)
Lemma lseg_set_last nodes p k j q q' ndj :
  NoDup (k ++ [j]) → nodes !! j = Some ndj →
  lseg nodes p (k ++ [j]) q →
  lseg (<[j := mkNode (code ndj) q']> nodes) p (k ++ [j]) q'.
Proof.
  intros Hnd Hj Hseg. apply lseg_app in Hseg as (r & Hk & Hlast).
  apply lseg_app. exists r. split.
  - apply lseg_frame with nodes; [|done].
    intros i Hi. apply list_lookup_insert_ne. intros ->.
    apply NoDup_app in Hnd as (_ & Hdisj & _). apply (Hdisj _ Hi). left.
  - simpl in *. destruct Hlast as (-> & _). split; [done|].
    exists (mkNode (code ndj) q'). split; [|done].
    apply list_lookup_insert_eq. by eapply lookup_lt_Some.
Qed.

Lemma lseg_lookup nodes p l q i :
  lseg nodes p l q → i ∈ l → is_Some (nodes !! i).
Proof.
  revert p. induction l as [|j l IH]; intros p; simpl; [by intros _ ?%elem_of_nil|].
  intros (-> & nd & Hnd & Hl) [->|Hi]%elem_of_cons; [by exists nd | by eapply IH].
Qed.

(** The last node of a NULL-terminated list points to NULL. *)
Lemma lseg_last_next nodes p k j :
  lseg nodes p (k ++ [j]) None → ∃ nd, nodes !! j = Some nd ∧ next nd = None.
Proof.
  intros (r & _ & Hj)%lseg_app. simpl in Hj.
  destruct Hj as (_ & nd & Hnd & Hnext). by exists nd.
Qed.

Lemma walk_list_lseg fuel nodes p l :
  walk_list fuel nodes p = Ok l ↔ lseg nodes p l None ∧ (length l ≤ fuel)%nat.
Proof.
  revert p l. induction fuel as [|fuel IH]; intros [i|] l; simpl.
  - split; [done|]. intros [Hl Hlen]. destruct l; simpl in *; [done | lia].
  - split; [intros [= <-]; simpl; split; [done | lia]|].
    intros [Hl _]. destruct l; simpl in *; [done | by destruct Hl].
  - destruct (nodes !! i) as [nd|] eqn:Hnd.
    + split.
      * intros (l' & Hl' & [= <-])%result_bind_Ok.
        apply IH in Hl' as [Hl' Hlen]. simpl. split; [|lia].
        split; [done|]. by exists nd.
      * destruct l as [|j l]; simpl; [by intros [[=] _]|].
        intros [([= <-] & nd' & Hnd' & Hl) Hlen].
        rewrite Hnd in Hnd'. injection Hnd' as <-.
        apply result_bind_Ok. exists l. split; [|done]. apply IH. split; [done | lia].
    + split; [done|]. destruct l as [|j l]; simpl; [by intros [[=] _]|].
      intros [([= <-] & nd' & Hnd' & _) _]. congruence.
  - split; [intros [= <-]; simpl; split; [done | lia]|].
    intros [Hl _]. destruct l; simpl in *; [done | by destruct Hl].
Qed.

Lemma code_of_insert nodes j nd nx i :
  nodes !! j = Some nd →
  code_of (<[j := mkNode (code nd) nx]> nodes) i = code_of nodes i.
Proof.
  intros Hj. unfold code_of. destruct (decide (i = j)) as [->|Hij].
  - rewrite list_lookup_insert_eq by (by eapply lookup_lt_Some). by rewrite Hj.
  - by rewrite list_lookup_insert_ne.
Qed.

(** ** [remove_impossible_codes] filters the list in place *)

Section Prune.

Variables DIGITS CODE_LENGTH : Z.
Variables (guess : Code) (offer : Offer).
Hypothesis guess_valid : valid_code DIGITS CODE_LENGTH guess.

Lemma code_is_guess_loop_spec c ps :
  (∀ i, i ∈ ps →
        0 ≤ i ∧ is_Some (guess !! Z.to_nat i) ∧ is_Some (c !! Z.to_nat i)) →
  code_is_guess_loop ps guess c
  = Ok (bool_decide (Forall (exact_at guess c) ps)).
Proof.
  induction ps as [|i ps IH]; intros Hps.
  - reflexivity.
  - destruct (Hps i) as (Hi & [x Hx] & [y Hy]); [left|].
    cbn [code_is_guess_loop].
    rewrite (array_get_Ok guess i x), bind_Ok, (array_get_Ok c i y), bind_Ok by done.
    destruct (decide (x ≠ y)) as [Hxy|Hxy].
    + rewrite bool_decide_eq_false_2; [done|].
      intros [He _]%Forall_cons. unfold exact_at in He. congruence.
    + rewrite IH by (intros j Hj; apply Hps; by right).
      f_equal. apply bool_decide_ext. rewrite Forall_cons.
      assert (exact_at guess c i)
        by (unfold exact_at; destruct (decide (x = y)); [congruence | done]).
      tauto.
Qed.

Lemma code_is_guess_eval c :
  valid_code DIGITS CODE_LENGTH c →
  code_is_guess CODE_LENGTH guess c = Ok (bool_decide (guess = c)).
Proof.
  intros Hc. unfold code_is_guess. rewrite code_is_guess_loop_spec.
  - f_equal. apply bool_decide_ext.
    rewrite <- (exact_matches_all CODE_LENGTH guess c)
      by (apply guess_valid || apply Hc).
    unfold exact_matches, count_exact.
    rewrite <- (filter_all_length (exact_at guess c)), length_seqZ.
    destruct guess_valid as [Hlen _]. lia.
  - intros i Hi.
    destruct (valid_positions_ok _ _ _ guess_valid i Hi) as (? & x & Hx & _).
    destruct (valid_positions_ok _ _ _ Hc i Hi) as (_ & y & Hy & _).
    rewrite Hx, Hy. eauto.
Qed.

Lemma remove_loop_None fuel pool prev n :
  remove_loop DIGITS CODE_LENGTH fuel guess offer pool prev None n = Ok (pool, prev, n).
Proof. by destruct fuel. Qed.

(** The test of the loop removes exactly the codes that do not survive. *)
Lemma remove_test c :
  valid_code DIGITS CODE_LENGTH c →
  ∃ po, make_guess DIGITS CODE_LENGTH guess c = Ok po
        ∧ code_is_guess CODE_LENGTH guess c = Ok (bool_decide (guess = c))
        ∧ (goats po ≠ goats offer ∨ chickens po ≠ chickens offer
           ∨ bool_decide (guess = c) = true
           ↔ ¬ survives DIGITS CODE_LENGTH guess offer c).
Proof.
  intros Hc. eexists. split; [by apply make_guess_eval|].
  split; [by apply code_is_guess_eval|].
  unfold survives. rewrite (make_guess_eval _ _ guess c) by done.
  rewrite bool_decide_eq_true. destruct offer as [og oc]. simpl.
  split.
  - intros [H|[H|H]] [[= H1 H2] H3]; congruence.
  - intros Hn.
    destruct (decide (exact_matches CODE_LENGTH guess c = og)); [|by left].
    destruct (decide (partial_matches DIGITS CODE_LENGTH guess c = oc));
      [|by right; left].
    right; right. destruct (decide (guess = c)); [done|].
    exfalso. apply Hn. split; congruence.
Qed.

Section Step.

Variables (fuel : nat) (pool : Pool) (prev : option nat) (c : nat) (n : Z).
Variables (nd : CodeNode) (po : Offer) (b : bool).
Hypothesis Hnd : all_codes pool !! c = Some nd.
Hypothesis Hpo : make_guess DIGITS CODE_LENGTH guess (code nd) = Ok po.
Hypothesis Hb : code_is_guess CODE_LENGTH guess (code nd) = Ok b.

Lemma remove_loop_keep :
  ¬ (goats po ≠ goats offer ∨ chickens po ≠ chickens offer ∨ b = true) →
  remove_loop DIGITS CODE_LENGTH (S fuel) guess offer pool prev (Some c) n
  = remove_loop DIGITS CODE_LENGTH fuel guess offer pool (Some c) (next nd) (n + 1).
Proof.
  intros Hk. cbn [remove_loop]. unfold node_at.
  rewrite Hnd, bind_Ok, Hpo, bind_Ok, Hb, bind_Ok.
  by rewrite decide_False.
Qed.

Lemma remove_loop_unlink_head :
  (goats po ≠ goats offer ∨ chickens po ≠ chickens offer ∨ b = true) →
  Some c = possible_codes pool →
  remove_loop DIGITS CODE_LENGTH (S fuel) guess offer pool prev (Some c) n
  = remove_loop DIGITS CODE_LENGTH fuel guess offer
      (mkPool (all_codes pool) (next nd)) prev (next nd) n.
Proof.
  intros Hu Hh. cbn [remove_loop]. unfold node_at.
  rewrite Hnd, bind_Ok, Hpo, bind_Ok, Hb, bind_Ok.
  rewrite decide_True, decide_True, bind_Ok by done.
  cbn [all_codes]. by rewrite Hnd, bind_Ok.
Qed.

Lemma remove_loop_unlink_next j ndj :
  (goats po ≠ goats offer ∨ chickens po ≠ chickens offer ∨ b = true) →
  Some c ≠ possible_codes pool →
  prev = Some j → all_codes pool !! j = Some ndj → j ≠ c →
  remove_loop DIGITS CODE_LENGTH (S fuel) guess offer pool prev (Some c) n
  = remove_loop DIGITS CODE_LENGTH fuel guess offer
      (mkPool (<[j := mkNode (code ndj) (next nd)]> (all_codes pool))
              (possible_codes pool)) prev (next nd) n.
Proof.
  intros Hu Hh -> Hj Hjc. cbn [remove_loop]. unfold node_at.
  rewrite Hnd, bind_Ok, Hpo, bind_Ok, Hb, bind_Ok.
  rewrite decide_True, decide_False by done.
  cbn [set_next]. unfold node_at. rewrite Hj, !bind_Ok.
  cbn [all_codes]. by rewrite list_lookup_insert_ne, Hnd, bind_Ok.
Qed.

End Step.

Lemma remove_loop_spec (cof : nat → Code) l2 :
  ∀ fuel pool prev curr k n,
    (length l2 ≤ fuel)%nat →
    lseg (all_codes pool) (possible_codes pool) (k ++ l2) None →
    lseg (all_codes pool) curr l2 None →
    prev = last k →
    (∀ i, code_of (all_codes pool) i = cof i) →
    (∀ i, i ∈ l2 → valid_code DIGITS CODE_LENGTH (cof i)) →
    ∃ pool',
      remove_loop DIGITS CODE_LENGTH fuel guess offer pool prev curr n
      = Ok (pool', last (k ++ filter (keeps DIGITS CODE_LENGTH guess offer cof) l2),
            n + Z.of_nat (length (filter (keeps DIGITS CODE_LENGTH guess offer cof) l2)))
      ∧ lseg (all_codes pool') (possible_codes pool')
             (k ++ filter (keeps DIGITS CODE_LENGTH guess offer cof) l2) None
      ∧ length (all_codes pool') = length (all_codes pool)
      ∧ (∀ i, code_of (all_codes pool') i = cof i).
Proof.
  induction l2 as [|c l2 IH];
    intros fuel pool prev curr k n Hfuel Hall Hcurr -> Hcof Hvalid.
  - simpl in Hcurr. subst curr. exists pool.
    rewrite remove_loop_None, filter_nil, Z.add_0_r, app_nil_r in *. done.
  - destruct fuel as [|fuel]; [simpl in Hfuel; lia|].
    simpl in Hcurr. destruct Hcurr as (-> & nd & Hnd & Hrest).
    assert (code nd = cof c) as Hcode
        by (rewrite <- Hcof; unfold code_of; by rewrite Hnd).
    destruct (remove_test (code nd)) as (po & Hpo & Hig & Htest);
      [rewrite Hcode; apply Hvalid; left|].
    pose proof (lseg_NoDup _ _ _ Hall) as Hnodup.
    assert (length l2 ≤ fuel)%nat as Hfuel' by (simpl in Hfuel; lia).
    assert (∀ i, i ∈ l2 → valid_code DIGITS CODE_LENGTH (cof i)) as Hvalid'
        by (intros i Hi; apply Hvalid; by right).
    destruct (decide (goats po ≠ goats offer ∨ chickens po ≠ chickens offer
                      ∨ bool_decide (guess = code nd) = true)) as [Hrm|Hkp].
    + (* the node is unlinked *)
      pose proof Hrm as Hns. apply Htest in Hns. rewrite Hcode in Hns.
      rewrite filter_cons_False by done.
      destruct (decide (Some c = possible_codes pool)) as [Hhead|Hhead].
      * (* it is the head of the list *)
        assert (k = []) as ->.
        { destruct k as [|k0 k]; [done|]. simpl in Hall.
          destruct Hall as (Hk0 & _). rewrite Hk0 in Hhead. injection Hhead as ->.
          simpl in Hnodup. apply NoDup_cons in Hnodup as [Hnotin _].
          exfalso. apply Hnotin, elem_of_app. right. left. }
        rewrite (remove_loop_unlink_head _ _ _ _ _ nd po _ Hnd Hpo Hig Hrm Hhead).
        destruct (IH fuel (mkPool (all_codes pool) (next nd)) None (next nd) [] n)
          as (pool' & Hrun & Hseg & Hlen & Hcof'); simpl; try done.
        exists pool'. by rewrite Hrun.
      * (* it follows the node [prev] *)
        destruct k as [|j k0 _] using rev_ind.
        { simpl in Hall. by destruct Hall as (Hh & _). }
        rewrite last_snoc.
        apply lseg_app in Hall as Hsplit. destruct Hsplit as (r & Hk & Hr).
        destruct (lseg_lookup _ _ _ _ j Hk) as [ndj Hndj];
          [apply elem_of_app; right; left|].
        assert (j ≠ c) as Hjc.
        { intros ->. apply NoDup_app in Hnodup as (_ & Hdisj & _).
          apply (Hdisj c); [apply elem_of_app; right; left | left]. }
        assert (j ∉ l2) as Hjl2.
        { intros Hin. apply NoDup_app in Hnodup as (_ & Hdisj & _).
          apply (Hdisj j); [apply elem_of_app; right; left | by right]. }
        rewrite (remove_loop_unlink_next _ _ _ _ _ nd po _ Hnd Hpo Hig j ndj)
          by done.
        destruct (IH fuel
                    (mkPool (<[j := mkNode (code ndj) (next nd)]> (all_codes pool))
                            (possible_codes pool))
                    (Some j) (next nd) (k0 ++ [j]) n)
          as (pool' & Hrun & Hseg & Hlen & Hcof'); simpl; try done.
        -- apply lseg_app. exists (next nd). split.
           ++ apply lseg_set_last with r; [|done|done].
              by apply NoDup_app in Hnodup as (? & _ & _).
           ++ apply lseg_frame with (all_codes pool); [|done].
              intros i Hi. apply list_lookup_insert_ne. by intros ->.
        -- apply lseg_frame with (all_codes pool); [|done].
           intros i Hi. apply list_lookup_insert_ne. by intros ->.
        -- by rewrite last_snoc.
        -- intros i. by rewrite code_of_insert.
        -- exists pool'. rewrite Hrun. cbn [all_codes] in Hlen.
           rewrite length_insert in Hlen. done.
    + (* the node stays and becomes [prev] *)
      assert (survives DIGITS CODE_LENGTH guess offer (cof c)) as Hkeep.
      { rewrite <- Hcode.
        destruct (decide (survives DIGITS CODE_LENGTH guess offer (code nd)));
          [done|]. exfalso. by apply Hkp, Htest. }
      rewrite filter_cons_True by done.
      rewrite (remove_loop_keep _ _ _ _ _ nd po _ Hnd Hpo Hig Hkp).
      destruct (IH fuel pool (Some c) (next nd) (k ++ [c]) (n + 1))
        as (pool' & Hrun & Hseg & Hlen & Hcof'); try done.
      -- by rewrite <- app_assoc.
      -- by rewrite last_snoc.
      -- exists pool'. rewrite Hrun. rewrite <- !app_assoc in *. simpl.
         split; [|done]. do 2 f_equal. lia.
Qed.

End Prune.

Section PruneTop.

Variables DIGITS CODE_LENGTH : Z.
Variables (guess : Code) (offer : Offer).
Hypothesis guess_valid : valid_code DIGITS CODE_LENGTH guess.

Lemma filter_fmap_code (cof : nat → Code) (l : list nat) :
  cof <$> filter (keeps DIGITS CODE_LENGTH guess offer cof) l
  = filter (survives DIGITS CODE_LENGTH guess offer) (cof <$> l).
Proof.
  induction l as [|i l IH]; [done|].
  rewrite fmap_cons, !filter_cons.
  unfold keeps at 1.
  destruct (decide (survives DIGITS CODE_LENGTH guess offer (cof i)));
    [rewrite fmap_cons|]; by rewrite IH.
Qed.

(** On the nodes: the list after the call holds the surviving nodes, in
    their order, and the call faults exactly when no node survives. *)
Lemma remove_impossible_codes_nodes pool l :
  pool_nodes pool = Ok l →
  (∀ i, i ∈ l → valid_code DIGITS CODE_LENGTH (code_of (all_codes pool) i)) →
  let l' := filter (keeps DIGITS CODE_LENGTH guess offer (code_of (all_codes pool))) l in
  (l' = [] → remove_impossible_codes DIGITS CODE_LENGTH pool guess offer = Fault)
  ∧ (l' ≠ [] →
     ∃ pool',
       remove_impossible_codes DIGITS CODE_LENGTH pool guess offer
       = Ok (pool', Z.of_nat (length l'))
       ∧ pool_nodes pool' = Ok l'
       ∧ ∀ i, code_of (all_codes pool') i = code_of (all_codes pool) i).
Proof.
  intros [Hseg Hlen]%walk_list_lseg Hvalid l'.
  destruct (remove_loop_spec DIGITS CODE_LENGTH guess offer guess_valid
              (code_of (all_codes pool)) l (length (all_codes pool)) pool
              None (possible_codes pool) [] 0)
    as (pool1 & Hrun & Hseg1 & Hlen1 & Hcof1); try done.
  simpl in Hrun, Hseg1. fold l' in Hrun, Hseg1.
  assert (length l' ≤ length (all_codes pool1))%nat as Hbound
      by (rewrite Hlen1; etrans; [apply length_filter | done]).
  clearbody l'.
  unfold remove_impossible_codes. rewrite Hrun, bind_Ok. split.
  - intros Hnil. by rewrite Hnil.
  - intros Hne. destruct l' as [|j k _] using rev_ind; [done|].
    rewrite last_snoc.
    destruct (lseg_last_next _ _ _ _ Hseg1) as (ndj & Hndj & Hnext).
    exists pool1. cbn [set_next]. unfold node_at. rewrite Hndj, !bind_Ok.
    assert (<[j := mkNode (code ndj) None]> (all_codes pool1) = all_codes pool1) as ->.
    { apply list_insert_id. rewrite Hndj. f_equal. destruct ndj; simpl in *; by subst. }
    split; [by destruct pool1|]. split; [|done].
    by apply walk_list_lseg.
Qed.

(** On the codes: the remaining candidates after the call are the
    survivors among those before it. *)
Lemma remove_impossible_codes_filter pool cs :
  remaining pool = Ok cs → Forall (valid_code DIGITS CODE_LENGTH) cs →
  let cs' := filter (survives DIGITS CODE_LENGTH guess offer) cs in
  (cs' = [] → remove_impossible_codes DIGITS CODE_LENGTH pool guess offer = Fault)
  ∧ (cs' ≠ [] →
     ∃ pool',
       remove_impossible_codes DIGITS CODE_LENGTH pool guess offer
       = Ok (pool', Z.of_nat (length cs'))
       ∧ remaining pool' = Ok cs').
Proof.
  intros (l & Hl & [= <-])%result_bind_Ok Hvalid cs'.
  destruct (remove_impossible_codes_nodes pool l Hl) as [Hnone Hsome].
  { intros i Hi. rewrite Forall_forall in Hvalid. apply Hvalid.
    by apply list_elem_of_fmap_2. }
  assert (cs' = code_of (all_codes pool)
                <$> filter (keeps DIGITS CODE_LENGTH guess offer (code_of (all_codes pool))) l)
    as Hcs'
      by (symmetry; apply filter_fmap_code).
  split.
  - intros Hnil. apply Hnone. rewrite Hnil in Hcs'.
    symmetry in Hcs'. by apply fmap_nil_inv in Hcs'.
  - intros Hne. destruct Hsome as (pool' & Hrun & Hnodes & Hcof).
    { intros Hnil. apply Hne. by rewrite Hcs', Hnil. }
    exists pool'. rewrite Hrun, Hcs', length_fmap. split; [done|].
    unfold remaining. rewrite Hnodes, bind_Ok. f_equal.
    apply list_fmap_ext. intros _ i _. apply Hcof.
Qed.

End PruneTop.

(** ** The partition sizes *)

Section Partitions.

Variables M T : Z.
Hypothesis M_nonneg : 0 ≤ M.
Hypothesis T_pos : 1 ≤ T.

(** The clamp by [possible_code_count] never applies: every thread, the
    last one too, gets [possible_code_count / THREADS] codes. *)
Lemma partition_size_eq thread :
  0 ≤ thread < T → partition_size M T thread = M `div` T.
Proof.
  intros Ht. unfold partition_size. rewrite min_macro_min.
  rewrite Z.quot_div_nonneg by lia.
  pose proof (Z.mul_div_le M T ltac:(lia)).
  assert (0 ≤ M `div` T) by (apply Z.div_pos; lia).
  assert ((thread + 1) * (M `div` T) ≤ T * (M `div` T)) by nia.
  lia.
Qed.

Lemma partition_sizes_sum :
  sumZ (partition_size M T <$> seqZ 0 T) = M - M `mod` T.
Proof.
  rewrite (sumZ_ext _ (λ _, M `div` T))
    by (intros i Hi%elem_of_seqZ; apply partition_size_eq; lia).
  assert (∀ (l : list Z) c, sumZ ((λ _, c) <$> l) = Z.of_nat (length l) * c) as Hconst.
  { intros l c. induction l as [|x l IH]; [done|].
    rewrite fmap_cons. simpl sumZ. simpl length. rewrite IH. lia. }
  rewrite Hconst, length_seqZ.
  pose proof (Z.div_mod M T ltac:(lia)). lia.
Qed.

End Partitions.

(** ** The place of an offer in [offer_results] *)

Section OfferIndex.

Variables DIGITS CODE_LENGTH : Z.

(** With a single non-exact position there is no partial match. *)
Lemma partial_matches_one_miss s t :
  count_nonexact s t (seqZ 0 CODE_LENGTH) = 1 →
  partial_matches DIGITS CODE_LENGTH s t = 0.
Proof.
  intros Hone. unfold partial_matches, remaining_count.
  rewrite (sumZ_ext _ (λ _, 0)); [apply sumZ_zero|].
  intros v _. unfold count_remaining.
  destruct (filter (remains_at s t v) (seqZ 0 CODE_LENGTH)) as [|i l1] eqn:Hs;
    [simpl; lia|].
  destruct (filter (remains_at t s v) (seqZ 0 CODE_LENGTH)) as [|j l2] eqn:Ht;
    [simpl; lia|].
  exfalso.
  assert (remains_at s t v i ∧ i ∈ seqZ 0 CODE_LENGTH) as [[Hi Hsi] Hips]
      by (apply (list_elem_of_filter (remains_at s t v)); rewrite Hs; left).
  assert (remains_at t s v j ∧ j ∈ seqZ 0 CODE_LENGTH) as [[Hj Htj] Hjps]
      by (apply (list_elem_of_filter (remains_at t s v)); rewrite Ht; left).
  unfold count_nonexact in Hone.
  assert (i ∈ filter (λ i, ¬ exact_at s t i) (seqZ 0 CODE_LENGTH)) as Hi'
      by (by apply list_elem_of_filter).
  assert (j ∈ filter (λ i, ¬ exact_at s t i) (seqZ 0 CODE_LENGTH)) as Hj'.
  { apply list_elem_of_filter. split; [|done]. by rewrite exact_at_sym. }
  destruct (filter (λ i, ¬ exact_at s t i) (seqZ 0 CODE_LENGTH)) as [|a [|b l]];
    simpl in Hone; try lia.
  apply list_elem_of_singleton in Hi', Hj'. subst i j.
  apply Hi. unfold exact_at. congruence.
Qed.

(** The offer of a guess against another code has its place inside the
    table of [CODE_LENGTH * CODE_LENGTH] cells. *)
Lemma offer_index_other guess c :
  valid_code DIGITS CODE_LENGTH guess → valid_code DIGITS CODE_LENGTH c →
  guess ≠ c →
  0 ≤ offer_index CODE_LENGTH
        (mkOffer (exact_matches CODE_LENGTH guess c)
                 (partial_matches DIGITS CODE_LENGTH guess c))
    < CODE_LENGTH * CODE_LENGTH.
Proof.
  intros Hg Hc Hne. unfold offer_index. simpl.
  destruct (offer_bound DIGITS CODE_LENGTH guess c Hg) as (He & Hp & Hsum).
  assert (exact_matches CODE_LENGTH guess c ≠ CODE_LENGTH) as HeL.
  { intros Heq. apply Hne. eapply exact_matches_all; [apply Hg | apply Hc | done]. }
  destruct (decide (exact_matches CODE_LENGTH guess c = CODE_LENGTH - 1))
    as [Hlast|Hlast].
  - rewrite partial_matches_one_miss; [nia|].
    pose proof (count_exact_nonexact guess c (seqZ 0 CODE_LENGTH)) as Hcount.
    rewrite length_seqZ in Hcount. unfold exact_matches in Hlast. lia.
  - nia.
Qed.

(** The offer of a guess against itself has its place one past the end. *)
Lemma offer_index_self guess :
  valid_code DIGITS CODE_LENGTH guess →
  make_guess DIGITS CODE_LENGTH guess guess = Ok (mkOffer CODE_LENGTH 0)
  ∧ offer_index CODE_LENGTH (mkOffer CODE_LENGTH 0) = CODE_LENGTH * CODE_LENGTH.
Proof.
  intros Hg. rewrite make_guess_eval by done. split; [|unfold offer_index; simpl; lia].
  rewrite partial_matches_self. do 2 f_equal.
  by apply exact_matches_all; try apply Hg.
Qed.

End OfferIndex.

(** ** The end of a session *)

Lemma main_round_solved DIGITS CODE_LENGTH THREADS schedule secret pool shared guess :
  valid_code DIGITS CODE_LENGTH guess → valid_code DIGITS CODE_LENGTH secret →
  (∃ offer, main_round DIGITS CODE_LENGTH THREADS schedule secret pool shared guess
            = Ok (Solved offer))
  ↔ guess = secret.
Proof.
  intros Hg Hs. unfold main_round. rewrite make_guess_eval, bind_Ok by done.
  cbn [goats]. split.
  - intros [offer Hrun].
    destruct (decide (exact_matches CODE_LENGTH guess secret = CODE_LENGTH)) as [He|He].
    { eapply exact_matches_all; [apply Hg | apply Hs | done]. }
    exfalso.
    apply result_bind_Ok in Hrun as ([pool' n] & _ & Hrun).
    apply result_bind_Ok in Hrun as (partitions & _ & Hrun).
    apply result_bind_Ok in Hrun as (shared' & _ & Hrun).
    destruct (decide (next_guess_score shared' = 0)).
    + destruct (possible_codes pool'); [|done].
      by apply result_bind_Ok in Hrun as (nd & _ & [=]).
    + by destruct (next_guess shared').
  - intros <-. eexists. rewrite decide_True; [done|].
    by apply exact_matches_all; try apply Hg.
Qed.

(** ** Scoring a guess that is itself a candidate *)

Section Score.

Variables DIGITS CODE_LENGTH : Z.

(** Counting the offers of a guess faults as soon as the walk meets the
    guess itself: its offer has no cell in the table. *)
Lemma tally_loop_self_faults pool guess l :
  valid_code DIGITS CODE_LENGTH guess →
  ∀ fuel curr table,
    lseg (all_codes pool) curr l None → (length l ≤ fuel)%nat →
    (∀ i, i ∈ l → valid_code DIGITS CODE_LENGTH (code_of (all_codes pool) i)) →
    Z.of_nat (length table) = CODE_LENGTH * CODE_LENGTH →
    guess ∈ code_of (all_codes pool) <$> l →
    tally_loop DIGITS CODE_LENGTH fuel pool guess curr table = Fault.
Proof.
  intros Hg. induction l as [|c l IH];
    intros fuel curr table Hseg Hfuel Hvalid Htable Hin.
  - by apply elem_of_nil in Hin.
  - destruct fuel as [|fuel]; [simpl in Hfuel; lia|].
    simpl in Hseg. destruct Hseg as (-> & nd & Hnd & Hrest).
    assert (code_of (all_codes pool) c = code nd) as Hcode
        by (unfold code_of; by rewrite Hnd).
    assert (valid_code DIGITS CODE_LENGTH (code nd)) as Hc
        by (rewrite <- Hcode; apply Hvalid; left).
    cbn [tally_loop]. unfold node_at. rewrite Hnd, bind_Ok.
    destruct (decide (guess = code nd)) as [<-|Hne].
    + destruct (offer_index_self DIGITS CODE_LENGTH guess Hg) as [-> Hidx].
      rewrite bind_Ok. unfold array_incr, array_get.
      rewrite Hidx, lookup_ge_None_2 by lia.
      by destruct (decide (0 ≤ CODE_LENGTH * CODE_LENGTH)).
    + rewrite make_guess_eval, bind_Ok by done.
      pose proof (offer_index_other DIGITS CODE_LENGTH guess (code nd) Hg Hc Hne) as Hidx.
      destruct (lookup_lt_is_Some_2 table
                  (Z.to_nat (offer_index CODE_LENGTH
                     (mkOffer (exact_matches CODE_LENGTH guess (code nd))
                              (partial_matches DIGITS CODE_LENGTH guess (code nd))))))
        as [x Hx]; [lia|].
      rewrite (array_incr_Ok _ _ x), bind_Ok by (lia || done).
      apply IH; try done.
      * simpl in Hfuel. lia.
      * intros i Hi. apply Hvalid. by right.
      * by rewrite length_insert.
      * rewrite fmap_cons, Hcode in Hin.
        apply elem_of_cons in Hin as [Heq|Hin]; [done | done].
Qed.

(** The worker therefore gives no score to a candidate of the pool. *)
Lemma score_guess_candidate_faults pool guess cs :
  remaining pool = Ok cs → Forall (valid_code DIGITS CODE_LENGTH) cs →
  guess ∈ cs →
  score_guess DIGITS CODE_LENGTH pool guess (calloc (CODE_LENGTH * CODE_LENGTH))
  = Fault.
Proof.
  intros (l & [Hseg Hlen]%walk_list_lseg & [= <-])%result_bind_Ok Hvalid Hin.
  rewrite Forall_forall in Hvalid.
  assert (valid_code DIGITS CODE_LENGTH guess) as Hg by (by apply Hvalid).
  unfold score_guess.
  rewrite (tally_loop_self_faults pool guess l); try done.
  - intros i Hi. apply Hvalid. by apply list_elem_of_fmap_2.
  - unfold calloc. rewrite length_replicate.
    destruct Hg as [HL _]. nia.
Qed.

End Score.

(** ** The secret is never pruned *)

(** A secret among the remaining candidates that is not the guess survives
    the pruning with its own offer: the call returns, and the secret is
    still a candidate. *)
Lemma secret_survives DIGITS CODE_LENGTH pool cs guess secret offer :
  remaining pool = Ok cs → Forall (valid_code DIGITS CODE_LENGTH) cs →
  valid_code DIGITS CODE_LENGTH guess →
  secret ∈ cs → secret ≠ guess →
  make_guess DIGITS CODE_LENGTH guess secret = Ok offer →
  ∃ pool' n cs',
    remove_impossible_codes DIGITS CODE_LENGTH pool guess offer = Ok (pool', n)
    ∧ remaining pool' = Ok cs' ∧ secret ∈ cs' ∧ 1 ≤ n ≤ Z.of_nat (length cs).
Proof.
  intros Hcs Hvalid Hg Hin Hne Hoffer.
  destruct (remove_impossible_codes_filter DIGITS CODE_LENGTH guess offer Hg pool cs
              Hcs Hvalid) as [_ Hsome].
  assert (secret ∈ filter (survives DIGITS CODE_LENGTH guess offer) cs) as Hin'
      by (by apply list_elem_of_filter).
  destruct Hsome as (pool' & Hrun & Hrem).
  { intros Hnil. rewrite Hnil in Hin'. by apply elem_of_nil in Hin'. }
  eexists pool', _, _. split; [done|]. split; [done|]. split; [done|].
  pose proof (length_filter (survives DIGITS CODE_LENGTH guess offer) cs).
  destruct (filter (survives DIGITS CODE_LENGTH guess offer) cs);
    [by apply elem_of_nil in Hin' | simpl in *; lia].
Qed.

(** ** The partitions of a round *)

Lemma lseg_drop nodes l :
  ∀ p k, lseg nodes p l None → (k ≤ length l)%nat →
         lseg nodes (l !! k) (drop k l) None.
Proof.
  induction l as [|i l IH]; intros p k Hseg Hk.
  - simpl in Hk. assert (k = O) as -> by lia. done.
  - destruct k as [|k].
    + simpl in *. destruct Hseg as (-> & Hrest). done.
    + simpl in Hseg. destruct Hseg as (-> & nd & Hnd & Hrest).
      simpl in Hk. apply (IH (next nd) k); [done | lia].
Qed.

Lemma walk_lseg pool l :
  ∀ p n, lseg (all_codes pool) p l None → (n ≤ length l)%nat →
         walk n pool p = Ok (l !! n).
Proof.
  induction l as [|i l IH]; intros p n Hseg Hn.
  - simpl in Hn. assert (n = O) as -> by lia. simpl in *. by subst.
  - simpl in Hseg. destruct Hseg as (-> & nd & Hnd & Hrest).
    destruct n as [|n]; [done|].
    cbn [walk]. unfold node_at. rewrite Hnd, bind_Ok.
    simpl in Hn. apply IH; [done | lia].
Qed.

Section MakePartitions.

Variables (pool : Pool) (l : list nat) (T : Z).
Hypothesis pool_list : lseg (all_codes pool) (possible_codes pool) l None.
Hypothesis l_nonempty : l ≠ [].
Hypothesis T_pos : 1 ≤ T.

Lemma share_bound (t : nat) :
  Z.of_nat t < T → (t * share l T < length l)%nat.
Proof.
  intros Ht. unfold share.
  assert (0 < length l)%nat by (destruct l; [done | simpl; lia]).
  pose proof (Z.mul_div_le (Z.of_nat (length l)) T ltac:(lia)).
  assert (0 ≤ Z.of_nat (length l) `div` T) by (apply Z.div_pos; lia).
  destruct (decide (Z.of_nat (length l) `div` T = 0)) as [->|Hne]; [simpl; lia|].
  nia.
Qed.

Lemma make_partition_step (t : nat) parts :
  Z.of_nat t < T →
  make_partition pool (Z.of_nat (length l)) T (Z.of_nat t)
                 (parts, l !! (t * share l T)%nat)
  = Ok (parts ++ [nth_partition l T t],
        if decide (Z.of_nat t < T - 1) then l !! (S t * share l T)%nat
        else l !! (t * share l T)%nat).
Proof.
  intros Ht. pose proof (share_bound t Ht) as Hlt.
  destruct (lookup_lt_is_Some_2 l (t * share l T)%nat Hlt) as [i Hi].
  unfold make_partition. rewrite Hi, bind_Ok.
  rewrite partition_size_eq by lia.
  rewrite Z.quot_div_nonneg by lia. fold (share l T).
  unfold nth_partition. rewrite Hi. simpl default.
  destruct (decide (Z.of_nat t < T - 1)) as [Hwalk|Hlast]; [|done].
  pose proof (share_bound (S t) ltac:(lia)) as Hlt'.
  rewrite (walk_lseg pool (drop (t * share l T) l) (Some i) (share l T)).
  - rewrite bind_Ok, lookup_drop. do 3 f_equal. lia.
  - rewrite <- Hi. apply (lseg_drop _ _ (possible_codes pool)); [done | lia].
  - rewrite length_drop. lia.
Qed.

Lemma make_partitions_prefix (t : nat) :
  Z.of_nat t ≤ T - 1 →
  foldM (make_partition pool (Z.of_nat (length l)) T) (seqZ 0 (Z.of_nat t))
        ([], possible_codes pool)
  = Ok (nth_partition l T <$> seq 0 t, l !! (t * share l T)%nat).
Proof.
  induction t as [|t IH]; intros Ht.
  - simpl. do 2 f_equal.
    destruct l; simpl in *; [done | by destruct pool_list as (-> & _)].
  - rewrite seqZ_S, foldM_app, IH, bind_Ok by lia. rewrite Z.add_0_l.
    cbn [foldM]. rewrite make_partition_step by lia.
    rewrite decide_True, bind_Ok by lia.
    by rewrite seq_S, fmap_app.
Qed.

(** Every thread gets the same share, the threads follow each other in the
    list, and what is left after the last share is in no partition. *)
Lemma make_partitions_eval :
  make_partitions pool (Z.of_nat (length l)) T
  = Ok (nth_partition l T <$> seq 0 (Z.to_nat T)).
Proof.
  unfold make_partitions, for_range.
  replace T with (Z.of_nat (S (Z.to_nat (T - 1)))) at 2 by lia.
  rewrite seqZ_S, foldM_app, make_partitions_prefix, bind_Ok by lia.
  rewrite Z.add_0_l. cbn [foldM].
  rewrite make_partition_step by lia.
  rewrite decide_False, !bind_Ok by lia. cbn [fst].
  replace (Z.to_nat T) with (S (Z.to_nat (T - 1))) by lia.
  by rewrite seq_S, fmap_app.
Qed.

End MakePartitions.

(** * The properties of the specification *)

Ltac valid_code_tac :=
  split; [reflexivity | repeat (constructor; [lia|]); constructor].

(** C1. For all sequences [guess] and [target] of [CODE_LENGTH] symbols in
    [0, DIGITS), repeated symbols included, [make_guess] returns an offer
    whose goats are the number of positions where guess and target hold the
    same symbol, and whose chickens are the sum over each symbol value of
    the smaller of the two counts of that value at the non-exact positions. *)
Theorem make_guess_spec DIGITS CODE_LENGTH guess target :
  valid_code DIGITS CODE_LENGTH guess → valid_code DIGITS CODE_LENGTH target →
  ∃ offer,
    make_guess DIGITS CODE_LENGTH guess target = Ok offer
    ∧ goats offer = exact_matches CODE_LENGTH guess target
    ∧ chickens offer = partial_matches DIGITS CODE_LENGTH guess target.
Proof. intros Hg Ht. eexists. split; [by apply make_guess_eval | done]. Qed.

Lemma make_guess_spec_witness :
  valid_code 10 4 [1; 1; 2; 3] ∧ valid_code 10 4 [1; 2; 1; 1]
  ∧ ∃ offer,
      make_guess 10 4 [1; 1; 2; 3] [1; 2; 1; 1] = Ok offer
      ∧ goats offer = exact_matches 4 [1; 1; 2; 3] [1; 2; 1; 1]
      ∧ chickens offer = partial_matches 10 4 [1; 1; 2; 3] [1; 2; 1; 1].
Proof.
  assert (valid_code 10 4 [1; 1; 2; 3]) as H1 by valid_code_tac.
  assert (valid_code 10 4 [1; 2; 1; 1]) as H2 by valid_code_tac.
  split; [exact H1|]. split; [exact H2|].
  exact (make_guess_spec 10 4 [1; 1; 2; 3] [1; 2; 1; 1] H1 H2).
Defined.

(** C8. For all sequences [guess] and [target] of [CODE_LENGTH] symbols in
    [0, DIGITS), the offer of [make_guess] has goats and chickens that are
    not negative and whose sum is at most [CODE_LENGTH]. *)
Theorem offer_sum_le_length DIGITS CODE_LENGTH guess target :
  valid_code DIGITS CODE_LENGTH guess → valid_code DIGITS CODE_LENGTH target →
  ∃ offer,
    make_guess DIGITS CODE_LENGTH guess target = Ok offer
    ∧ 0 ≤ goats offer ∧ 0 ≤ chickens offer
    ∧ goats offer + chickens offer ≤ CODE_LENGTH.
Proof.
  intros Hg Ht. eexists. split; [by apply make_guess_eval|]. simpl.
  by apply offer_bound.
Qed.

Lemma offer_sum_le_length_witness :
  valid_code 3 4 [0; 1; 2; 2] ∧ valid_code 3 4 [2; 2; 1; 0]
  ∧ ∃ offer,
      make_guess 3 4 [0; 1; 2; 2] [2; 2; 1; 0] = Ok offer
      ∧ 0 ≤ goats offer ∧ 0 ≤ chickens offer
      ∧ goats offer + chickens offer ≤ 4.
Proof.
  assert (valid_code 3 4 [0; 1; 2; 2]) as H1 by valid_code_tac.
  assert (valid_code 3 4 [2; 2; 1; 0]) as H2 by valid_code_tac.
  split; [exact H1|]. split; [exact H2|].
  exact (offer_sum_le_length 3 4 [0; 1; 2; 2] [2; 2; 1; 0] H1 H2).
Defined.

(** C9. For a positive base [DIGITS] and every [n] in
    [0, DIGITS ^ CODE_LENGTH), [int_to_code] returns a sequence of
    [CODE_LENGTH] digits in [0, DIGITS) which, read back as a number in base
    [DIGITS] with the most significant digit first, is [n]. *)
Theorem int_to_code_roundtrip DIGITS CODE_LENGTH n :
  0 < DIGITS → 0 ≤ n < DIGITS ^ CODE_LENGTH →
  ∃ c,
    int_to_code DIGITS CODE_LENGTH n = Ok c
    ∧ valid_code DIGITS CODE_LENGTH c
    ∧ code_to_int DIGITS c = n.
Proof. intros HD Hn. by apply int_to_code_eval. Qed.

Lemma int_to_code_roundtrip_witness :
  0 < 10 ∧ 0 ≤ 112 < 10 ^ 5
  ∧ ∃ c, int_to_code 10 5 112 = Ok c ∧ valid_code 10 5 c ∧ code_to_int 10 c = 112.
Proof.
  assert (0 < 10) as H1 by lia.
  assert (0 ≤ 112 < 10 ^ 5) as H2 by lia.
  split; [exact H1|]. split; [exact H2|].
  exact (int_to_code_roundtrip 10 5 112 H1 H2).
Defined.

(** C10. For all sequences [guess] and [target] of [CODE_LENGTH] symbols in
    [0, DIGITS), the goats of the offer of [make_guess] are [CODE_LENGTH] if
    and only if [guess] and [target] are equal, and then the chickens are 0;
    hence a round of the main loop ends the session if and only if the
    guess it plays is the secret. *)
Theorem goats_full_iff_equal DIGITS CODE_LENGTH guess target :
  valid_code DIGITS CODE_LENGTH guess → valid_code DIGITS CODE_LENGTH target →
  ∃ offer,
    make_guess DIGITS CODE_LENGTH guess target = Ok offer
    ∧ (goats offer = CODE_LENGTH ↔ guess = target)
    ∧ (guess = target → chickens offer = 0)
    ∧ ∀ THREADS schedule pool shared,
        (∃ o, main_round DIGITS CODE_LENGTH THREADS schedule target pool shared guess
              = Ok (Solved o))
        ↔ guess = target.
Proof.
  intros Hg Ht. eexists. split; [by apply make_guess_eval|]. simpl.
  split; [apply exact_matches_all; apply Hg || apply Ht|].
  split; [intros <-; apply partial_matches_self|].
  intros THREADS schedule pool shared. by apply main_round_solved.
Qed.

Lemma goats_full_iff_equal_witness :
  valid_code 10 3 [4; 0; 4] ∧ valid_code 10 3 [4; 0; 7]
  ∧ ∃ offer,
      make_guess 10 3 [4; 0; 4] [4; 0; 7] = Ok offer
      ∧ (goats offer = 3 ↔ [4; 0; 4] = [4; 0; 7])
      ∧ ([4; 0; 4] = [4; 0; 7] → chickens offer = 0)
      ∧ ∀ THREADS schedule pool shared,
          (∃ o, main_round 10 3 THREADS schedule [4; 0; 7] pool shared [4; 0; 4]
                = Ok (Solved o))
          ↔ [4; 0; 4] = [4; 0; 7].
Proof.
  assert (valid_code 10 3 [4; 0; 4]) as H1 by valid_code_tac.
  assert (valid_code 10 3 [4; 0; 7]) as H2 by valid_code_tac.
  split; [exact H1|]. split; [exact H2|].
  exact (goats_full_iff_equal 10 3 [4; 0; 4] [4; 0; 7] H1 H2).
Defined.

(** C2. The claim: the score the worker gives to a guess of its partition is
    the least count among the buckets of the offers of the guess against
    every remaining candidate, the guess itself included.  The code, run in
    base 4 with one-digit codes after the first guess [0] left [1], [2] and
    [3]: scoring the candidate [1] writes the bucket of its offer against
    itself outside [offer_results] and yields no score, where the least
    bucket count is 1. *)
Theorem score_of_candidate_faults :
  (init_pool 4 1 ≫= λ pool, remove_impossible_codes 4 1 pool [0] (mkOffer 0 0))
  = Ok (pool_d4, 3)
  ∧ remaining pool_d4 = Ok [[1]; [2]; [3]]
  ∧ score_guess 4 1 pool_d4 [1] (calloc (1 * 1)) = Fault
  ∧ (offers_of 4 1 [1] [[1]; [2]; [3]] ≫= λ os, Ok (min_nonzero_bucket os))
    = Ok (Some 1).
Proof. repeat split; vm_compute; reflexivity. Qed.

(** C3. The claim: the sizes of the partitions sum to the number of
    remaining candidates, and the partitions leave no gap.  The code, for 5
    remaining candidates and 2 threads: both partitions have size 2, the
    sizes sum to 4, and the last candidate (node 5) is in no partition. *)
Theorem partition_sizes_lose_remainder :
  partition_size 5 2 <$> seqZ 0 2 = [2; 2]
  ∧ sumZ (partition_size 5 2 <$> seqZ 0 2) = 4
  ∧ remaining pool_d6 = Ok [[1]; [2]; [3]; [4]; [5]]
  ∧ make_partitions pool_d6 5 2 = Ok [mkPartition 1 2; mkPartition 3 2].
Proof. repeat split; vm_compute; reflexivity. Qed.

(** C4. The claim: after [remove_impossible_codes] the remaining candidates
    are those that were remaining, give the observed offer and are not the
    guess, and the count of them is returned.  The code, when [0] is the
    only remaining candidate and is played: no candidate survives, and the
    call dereferences the NULL pointer [prev] instead of returning 0. *)
Theorem prune_of_last_candidate_faults :
  remaining pool_only_0 = Ok [[0]]
  ∧ filter (survives 2 1 [0] (mkOffer 0 0)) [[0]] = []
  ∧ remove_impossible_codes 2 1 pool_only_0 [0] (mkOffer 0 0) = Fault.
Proof. repeat split; vm_compute; reflexivity. Qed.





(** C6. The claim: [remove_impossible_codes] that removes every element
    leaves an empty list and returns 0.  The code, on the four codes of two
    binary digits with the guess [0; 0] and an offer that none of them
    gives: the first, the middle and the last node are all removed, [prev]
    is still NULL after the loop, and [prev->next = NULL] dereferences it. *)
Theorem prune_of_every_candidate_faults :
  remaining pool_d2_l2 = Ok [[0; 0]; [0; 1]; [1; 0]; [1; 1]]
  ∧ filter (survives 2 2 [0; 0] (mkOffer 0 2)) [[0; 0]; [0; 1]; [1; 0]; [1; 1]] = []
  ∧ remove_loop 2 2 4 [0; 0] (mkOffer 0 2) pool_d2_l2 None (Some 0%nat) 0
    = Ok (mkPool (all_codes pool_d2_l2) None, None, 0)
  ∧ remove_impossible_codes 2 2 pool_d2_l2 [0; 0] (mkOffer 0 2) = Fault.
Proof. repeat split; vm_compute; reflexivity. Qed.

(** C7. The claim: the place [goats * CODE_LENGTH + chickens] of every offer
    met during scoring is below [CODE_LENGTH * CODE_LENGTH], also when the
    candidate is the guess.  The code, with the default 10 digits and length
    5, for the candidate 12345 scored against itself: the offer is 5 goats
    and no chicken, its place is 25, and the table has the cells 0 to 24. *)
Theorem self_offer_outside_table :
  make_guess 10 5 [1; 2; 3; 4; 5] [1; 2; 3; 4; 5] = Ok (mkOffer 5 0)
  ∧ offer_index 5 (mkOffer 5 0) = 5 * 5
  ∧ length (calloc (5 * 5)) = 25%nat
  ∧ array_incr (calloc (5 * 5)) (offer_index 5 (mkOffer 5 0)) = Fault.
Proof. repeat split; vm_compute; reflexivity. Qed.

(** ** Further examples *)

Example make_guess_ex :
  make_guess 10 4 [1; 1; 2; 3] [1; 2; 1; 1] = Ok (mkOffer 1 2).
Proof. reflexivity. Qed.

Example int_to_code_ex : int_to_code 10 5 112 = Ok [0; 0; 1; 1; 2].
Proof. reflexivity. Qed.

(** A number with more digits than the code has places is written before the
    start of the array. *)
Example int_to_code_too_long : int_to_code 10 2 123 = Fault.
Proof. reflexivity. Qed.

Example init_pool_ex : init_pool 2 2 = Ok pool_d2_l2.
Proof. reflexivity. Qed.

(** Removing the first, a middle and the last node of a list. *)
Example remove_first :
  (remove_impossible_codes 2 2 pool_d2_l2 [0; 0] (mkOffer 1 0)
   ≫= λ r, remaining r.1) = Ok [[0; 1]; [1; 0]].
Proof. vm_compute. reflexivity. Qed.

Example remove_middle :
  (remove_impossible_codes 2 2 pool_d2_l2 [0; 1] (mkOffer 1 0)
   ≫= λ r, remaining r.1) = Ok [[0; 0]; [1; 1]].
Proof. vm_compute. reflexivity. Qed.

Example remove_last :
  (remove_impossible_codes 2 2 pool_d2_l2 [1; 1] (mkOffer 1 0)
   ≫= λ r, remaining r.1) = Ok [[0; 1]; [1; 0]].
Proof. vm_compute. reflexivity. Qed.

(** Two different offers that share a cell of [offer_results]: no goat and
    [CODE_LENGTH] chickens, and one goat and no chicken. *)
Example offers_share_cell :
  make_guess 3 2 [0; 1] [1; 0] = Ok (mkOffer 0 2)
  ∧ make_guess 3 2 [0; 1] [0; 2] = Ok (mkOffer 1 0)
  ∧ offer_index 2 (mkOffer 0 2) = offer_index 2 (mkOffer 1 0).
Proof. repeat split. Qed.

(** A round in which every partition is empty falls back on the first
    remaining code. *)
Example round_fallback :
  (init_pool 2 1 ≫= λ pool,
     main_round 2 1 5 [0; 1; 2; 3; 4]%nat [1] pool (mkShared None 0) [0])
  = Ok (Next (mkOffer 0 0)
             (mkPool [mkNode [0] (Some 1%nat); mkNode [1] None] (Some 1%nat))
             (mkShared None 0) [1]).
Proof. vm_compute. reflexivity. Qed.

(** ** The offer does not depend on which code is the guess *)

Lemma exact_matches_sym CODE_LENGTH s t :
  exact_matches CODE_LENGTH s t = exact_matches CODE_LENGTH t s.
Proof.
  unfold exact_matches, count_exact. do 2 f_equal.
  apply list_filter_iff. intros i. apply exact_at_sym.
Qed.

Lemma partial_matches_sym DIGITS CODE_LENGTH s t :
  partial_matches DIGITS CODE_LENGTH s t = partial_matches DIGITS CODE_LENGTH t s.
Proof.
  unfold partial_matches. apply sumZ_ext. intros v _. apply Z.min_comm.
Qed.

(** ** Numbers too large for a code *)

Section IntToCodeRange.

Variable DIGITS : Z.
Hypothesis DIGITS_pos : 0 < DIGITS.

Lemma int_to_code_loop_overflow k :
  ∀ num c, DIGITS ^ Z.of_nat k ≤ num → (k ≤ length c)%nat →
           int_to_code_loop DIGITS k num c = Fault.
Proof.
  induction k as [|k IH]; intros num c Hnum Hlen.
  - simpl in Hnum. simpl. by rewrite decide_False by lia.
  - assert (0 < DIGITS ^ Z.of_nat k) as Hpow by (apply Z.pow_pos_nonneg; lia).
    replace (Z.of_nat (S k)) with (Z.succ (Z.of_nat k)) in Hnum by lia.
    rewrite Z.pow_succ_r in Hnum by lia.
    assert (0 < num) as Hpos by nia.
    destruct (lookup_lt_is_Some_2 c k) as [y Hy]; [lia|].
    replace (int_to_code_loop DIGITS (S k) num c)
      with (array_set c (Z.of_nat k) (Z.rem num DIGITS)
            ≫= int_to_code_loop DIGITS k (Z.quot num DIGITS))
      by (simpl; rewrite decide_False by lia; done).
    rewrite (array_set_Ok c (Z.of_nat k) _ y), bind_Ok
      by (lia || by rewrite Nat2Z.id).
    apply IH; [|rewrite length_insert; lia].
    rewrite Z.quot_div_nonneg by lia.
    apply Z.div_le_lower_bound; lia.
Qed.

Lemma code_to_int_bound ds :
  Forall (λ x, 0 ≤ x < DIGITS) ds →
  0 ≤ code_to_int DIGITS ds < DIGITS ^ Z.of_nat (length ds).
Proof.
  induction ds as [|d ds IH] using rev_ind; intros Hall.
  - unfold code_to_int. simpl. rewrite Z.pow_0_r. lia.
  - apply Forall_app in Hall as [Hds Hd]. rewrite Forall_singleton in Hd.
    specialize (IH Hds). rewrite code_to_int_snoc, length_app. simpl length.
    replace (Z.of_nat (length ds + 1)) with (Z.succ (Z.of_nat (length ds))) by lia.
    rewrite Z.pow_succ_r by lia.
    set (P := DIGITS ^ Z.of_nat (length ds)) in *. clearbody P.
    set (v := code_to_int DIGITS ds) in *. clearbody v. simpl in Hd.
    assert (v * DIGITS ≤ (P - 1) * DIGITS) by nia. nia.
Qed.

(** Two codes of the same length with the same value are the same code. *)
Lemma code_to_int_inj ds1 :
  ∀ ds2, length ds1 = length ds2 →
         Forall (λ x, 0 ≤ x < DIGITS) ds1 → Forall (λ x, 0 ≤ x < DIGITS) ds2 →
         code_to_int DIGITS ds1 = code_to_int DIGITS ds2 → ds1 = ds2.
Proof.
  induction ds1 as [|d1 ds1 IH] using rev_ind; intros ds2 Hlen H1 H2 Heq.
  - destruct ds2; [done | simpl in Hlen; lia].
  - destruct ds2 as [|d2 ds2 _] using rev_ind.
    { rewrite length_app in Hlen. simpl in Hlen. lia. }
    rewrite !length_app in Hlen. simpl in Hlen.
    apply Forall_app in H1 as [H1 Hd1]. rewrite Forall_singleton in Hd1.
    apply Forall_app in H2 as [H2 Hd2]. rewrite Forall_singleton in Hd2.
    rewrite !code_to_int_snoc in Heq.
    simpl in Hd1, Hd2.
    assert (code_to_int DIGITS ds1 = code_to_int DIGITS ds2 ∧ d1 = d2) as [Hv ->]
      by (apply (Z.div_mod_unique DIGITS); [left; lia | left; lia | lia]).
    f_equal. apply IH; [lia | done | done | done].
Qed.

Lemma int_to_code_of_code CODE_LENGTH c :
  valid_code DIGITS CODE_LENGTH c →
  0 ≤ code_to_int DIGITS c < DIGITS ^ CODE_LENGTH
  ∧ int_to_code DIGITS CODE_LENGTH (code_to_int DIGITS c) = Ok c.
Proof.
  intros [Hlen Hall].
  pose proof (code_to_int_bound c Hall) as Hb. rewrite Hlen in Hb.
  split; [done|].
  destruct (int_to_code_eval DIGITS DIGITS_pos CODE_LENGTH (code_to_int DIGITS c) Hb)
    as (c' & Hrun & [Hlen' Hall'] & Hval).
  rewrite Hrun. f_equal. apply code_to_int_inj; [lia | done | done | done].
Qed.

End IntToCodeRange.

(** ** The initial pool holds every code once *)

Section InitPool.

Variables DIGITS CODE_LENGTH : Z.
Hypothesis DIGITS_pos : 0 < DIGITS.
Hypothesis CODE_LENGTH_nonneg : 0 ≤ CODE_LENGTH.

Lemma CODE_COUNT_pos : 0 < CODE_COUNT DIGITS CODE_LENGTH.
Proof. unfold CODE_COUNT. apply Z.pow_pos_nonneg; lia. Qed.

Lemma code_at_spec i :
  0 ≤ i < CODE_COUNT DIGITS CODE_LENGTH →
  int_to_code DIGITS CODE_LENGTH i = Ok (code_at DIGITS CODE_LENGTH i)
  ∧ valid_code DIGITS CODE_LENGTH (code_at DIGITS CODE_LENGTH i)
  ∧ code_to_int DIGITS (code_at DIGITS CODE_LENGTH i) = i.
Proof.
  intros Hi. unfold code_at.
  destruct (int_to_code_eval DIGITS DIGITS_pos CODE_LENGTH i Hi) as (c & -> & Hv & Hval).
  done.
Qed.

Lemma init_nodes_prefix (t : nat) :
  Z.of_nat t ≤ CODE_COUNT DIGITS CODE_LENGTH →
  foldM (init_node DIGITS CODE_LENGTH) (seqZ 0 (Z.of_nat t)) []
  = Ok (init_node_at DIGITS CODE_LENGTH <$> seq 0 t).
Proof.
  induction t as [|t IH]; intros Ht; [done|].
  rewrite seqZ_S, foldM_app, IH, bind_Ok by lia. rewrite Z.add_0_l.
  cbn [foldM]. unfold init_node.
  destruct (code_at_spec (Z.of_nat t)) as (-> & _ & _); [lia|].
  rewrite !bind_Ok, seq_S, fmap_app. simpl. unfold init_node_at.
  do 4 f_equal. destruct (decide (Z.of_nat t = CODE_COUNT DIGITS CODE_LENGTH - 1));
    [done | f_equal; lia].
Qed.

Lemma init_pool_eval :
  init_pool DIGITS CODE_LENGTH
  = Ok (mkPool (init_node_at DIGITS CODE_LENGTH
                <$> seq 0 (Z.to_nat (CODE_COUNT DIGITS CODE_LENGTH)))
               (Some O)).
Proof.
  pose proof CODE_COUNT_pos. unfold init_pool, for_range.
  rewrite <- (Z2Nat.id (CODE_COUNT DIGITS CODE_LENGTH)) at 1 by lia.
  rewrite init_nodes_prefix by lia. done.
Qed.

(** The nodes are chained in the order of the array. *)
Lemma init_nodes_lseg (m : nat) :
  ∀ k : nat,
    (1 ≤ m)%nat → (k + m)%nat = Z.to_nat (CODE_COUNT DIGITS CODE_LENGTH) →
    lseg (init_node_at DIGITS CODE_LENGTH
          <$> seq 0 (Z.to_nat (CODE_COUNT DIGITS CODE_LENGTH)))
         (Some k) (seq k m) None.
Proof.
  induction m as [|m IH]; intros k Hm Hkm; [lia|].
  simpl. split; [done|]. exists (init_node_at DIGITS CODE_LENGTH k). split.
  - rewrite list_lookup_fmap, lookup_seq_lt by lia. done.
  - unfold init_node_at. simpl.
    destruct (decide (Z.of_nat k = CODE_COUNT DIGITS CODE_LENGTH - 1)) as [He|He].
    + assert (m = O) as -> by lia. done.
    + apply IH; lia.
Qed.

Lemma init_pool_remaining pool :
  init_pool DIGITS CODE_LENGTH = Ok pool →
  remaining pool = Ok (universe DIGITS CODE_LENGTH).
Proof.
  rewrite init_pool_eval. intros [= <-]. pose proof CODE_COUNT_pos.
  unfold remaining, pool_nodes. cbn [all_codes possible_codes].
  rewrite (proj2 (walk_list_lseg _ _ _
                    (seq 0 (Z.to_nat (CODE_COUNT DIGITS CODE_LENGTH))))).
  - rewrite bind_Ok. unfold universe. f_equal.
    apply list_fmap_ext. intros j i Hi. apply lookup_seq in Hi as [-> Hi].
    unfold code_of. rewrite list_lookup_fmap, lookup_seq_lt by lia. done.
  - split; [apply init_nodes_lseg; lia|].
    by rewrite length_fmap.
Qed.

Lemma universe_valid : Forall (valid_code DIGITS CODE_LENGTH) (universe DIGITS CODE_LENGTH).
Proof.
  apply Forall_forall. intros c (i & -> & Hi%elem_of_seq)%list_elem_of_fmap.
  apply code_at_spec. lia.
Qed.

Lemma universe_NoDup : NoDup (universe DIGITS CODE_LENGTH).
Proof.
  apply NoDup_fmap_2_strong; [|apply NoDup_seq].
  intros i j Hi%elem_of_seq Hj%elem_of_seq Heq.
  apply (f_equal (code_to_int DIGITS)) in Heq.
  destruct (code_at_spec (Z.of_nat i)) as (_ & _ & Hvi); [lia|].
  destruct (code_at_spec (Z.of_nat j)) as (_ & _ & Hvj); [lia|].
  rewrite Hvi, Hvj in Heq. lia.
Qed.

Lemma universe_complete c :
  valid_code DIGITS CODE_LENGTH c → c ∈ universe DIGITS CODE_LENGTH.
Proof.
  intros Hc.
  destruct (int_to_code_of_code DIGITS DIGITS_pos CODE_LENGTH c Hc) as [Hb Hrun].
  apply list_elem_of_fmap. exists (Z.to_nat (code_to_int DIGITS c)). split.
  - unfold code_at. rewrite Z2Nat.id by lia. by rewrite Hrun.
  - apply elem_of_seq. unfold CODE_COUNT. lia.
Qed.

End InitPool.

(** ** The loop that reads and clears [offer_results] *)

Lemma min_step_cell (t : nat) (x m : Z) (table : list Z) :
  table !! t = Some x →
  min_step (Z.of_nat t) (m, replicate t 0 ++ drop t table)
  = Ok (if decide (x = 0) then m else Z.min x m,
        replicate (S t) 0 ++ drop (S t) table).
Proof.
  intros Hx. unfold min_step.
  assert ((replicate t 0 ++ drop t table) !! t = Some x) as Hcell.
  { rewrite lookup_app_r by (rewrite length_replicate; lia).
    rewrite length_replicate, Nat.sub_diag, lookup_drop, Nat.add_0_r. done. }
  rewrite (array_get_Ok _ _ x), bind_Ok by (lia || by rewrite Nat2Z.id).
  rewrite (array_set_Ok _ _ _ x), bind_Ok by (lia || by rewrite Nat2Z.id).
  rewrite Nat2Z.id.
  assert (<[t := 0]> (replicate t 0 ++ drop t table)
          = replicate (S t) 0 ++ drop (S t) table) as ->.
  { rewrite (insert_app_r_alt _ _ t) by (rewrite length_replicate; lia).
    rewrite length_replicate, Nat.sub_diag, (drop_S _ x t), replicate_S_end by done.
    simpl. by rewrite <- app_assoc. }
  rewrite min_macro_min. by destruct (decide (x = 0)).
Qed.

(** After [t] rounds the first [t] cells are cleared, and the running
    minimum is the start value or the least nonzero cell read so far. *)
Lemma min_loop_prefix (m : Z) (table : list Z) (t : nat) :
  (t ≤ length table)%nat →
  ∃ r,
    foldM min_step (seqZ 0 (Z.of_nat t)) (m, table)
    = Ok (r, replicate t 0 ++ drop t table)
    ∧ r ≤ m
    ∧ (∀ x, x ∈ take t table → x ≠ 0 → r ≤ x)
    ∧ (r = m ∨ (r ∈ take t table ∧ r ≠ 0)).
Proof.
  induction t as [|t IH]; intros Ht.
  - exists m. simpl. rewrite drop_0. split; [done|]. split; [lia|].
    split; [by intros x ?%elem_of_nil | by left].
  - destruct IH as (r & Hrun & Hle & Hmin & Hmem); [lia|].
    destruct (lookup_lt_is_Some_2 table t) as [x Hx]; [lia|].
    rewrite seqZ_S, foldM_app, Hrun, bind_Ok, Z.add_0_l. cbn [foldM].
    rewrite (min_step_cell t x) by done. rewrite bind_Ok.
    rewrite (take_S_r _ _ x) by done.
    eexists. split; [done|].
    destruct (decide (x = 0)) as [->|Hx0].
    + split; [done|]. split.
      * intros y [Hy|Hy%list_elem_of_singleton]%elem_of_app Hy0; [by apply Hmin | done].
      * destruct Hmem as [->|[Hin Hr0]]; [by left|].
        right. split; [|done]. apply elem_of_app. by left.
    + split; [lia|]. split.
      * intros y [Hy|Hy%list_elem_of_singleton]%elem_of_app Hy0.
        -- specialize (Hmin y Hy Hy0). lia.
        -- subst y. lia.
      * destruct (Z.min_spec x r) as [[Hlt ->]|[Hge ->]].
        -- right. split; [|done]. apply elem_of_app. right. by left.
        -- destruct Hmem as [->|[Hin Hr0]]; [by left|].
           right. split; [|done]. apply elem_of_app. by left.
Qed.

(** ** Symbols outside the alphabet *)

Section OutOfRange.

Variables DIGITS CODE_LENGTH : Z.

Lemma array_incr_outside a i :
  ¬ (0 ≤ i < Z.of_nat (length a)) → array_incr a i = Fault.
Proof.
  intros Hi. unfold array_incr, array_get.
  destruct (decide (0 ≤ i)); [|done].
  rewrite lookup_ge_None_2 by lia. done.
Qed.

(** One round of the first loop at a position where both codes have a
    symbol: it faults, or it keeps the size of the counters. *)
Lemma count_digits_cases guess c i x y goats gd cd :
  0 ≤ i → guess !! Z.to_nat i = Some x → c !! Z.to_nat i = Some y →
  length gd = Z.to_nat DIGITS → length cd = Z.to_nat DIGITS →
  (count_digits guess c i (goats, gd, cd) = Fault
   ∧ x ≠ y ∧ ¬ (0 ≤ x < DIGITS ∧ 0 ≤ y < DIGITS))
  ∨ (∃ goats' gd' cd',
       count_digits guess c i (goats, gd, cd) = Ok (goats', gd', cd')
       ∧ length gd' = Z.to_nat DIGITS ∧ length cd' = Z.to_nat DIGITS
       ∧ (x = y ∨ (0 ≤ x < DIGITS ∧ 0 ≤ y < DIGITS))).
Proof.
  intros Hi Hx Hy Hgd Hcd. unfold count_digits.
  rewrite (array_get_Ok guess i x), bind_Ok, (array_get_Ok c i y), bind_Ok by done.
  destruct (decide (x = y)) as [->|Hxy].
  { right. eexists _, _, _. split; [done|]. auto. }
  destruct (decide (0 ≤ x < DIGITS)) as [Hxr|Hxr].
  - destruct (lookup_lt_is_Some_2 gd (Z.to_nat x)) as [n Hn]; [lia|].
    rewrite (array_incr_Ok gd x n), bind_Ok by (lia || done).
    destruct (decide (0 ≤ y < DIGITS)) as [Hyr|Hyr].
    + destruct (lookup_lt_is_Some_2 cd (Z.to_nat y)) as [m Hm]; [lia|].
      rewrite (array_incr_Ok cd y m), bind_Ok by (lia || done).
      right. eexists _, _, _. split; [done|]. rewrite !length_insert. auto.
    + left. rewrite (array_incr_outside cd y) by (rewrite Hcd; lia).
      split; [done|]. split; [done | tauto].
  - left. rewrite (array_incr_outside gd x) by (rewrite Hgd; lia).
    split; [done|]. split; [done | tauto].
Qed.

Lemma count_loop_faults guess c ps :
  (∀ i, i ∈ ps → 0 ≤ i ∧ is_Some (guess !! Z.to_nat i) ∧ is_Some (c !! Z.to_nat i)) →
  (∃ i x y, i ∈ ps ∧ guess !! Z.to_nat i = Some x ∧ c !! Z.to_nat i = Some y
            ∧ x ≠ y ∧ ¬ (0 ≤ x < DIGITS ∧ 0 ≤ y < DIGITS)) →
  ∀ goats gd cd,
    length gd = Z.to_nat DIGITS → length cd = Z.to_nat DIGITS →
    foldM (count_digits guess c) ps (goats, gd, cd) = Fault.
Proof.
  induction ps as [|j ps IH]; intros Hps (i & x & y & Hin & Hx & Hy & Hxy & Hbad)
    goats gd cd Hgd Hcd.
  - by apply elem_of_nil in Hin.
  - destruct (Hps j) as (Hj & [xj Hxj] & [yj Hyj]); [left|].
    rewrite foldM_cons.
    destruct (count_digits_cases guess c j xj yj goats gd cd Hj Hxj Hyj Hgd Hcd)
      as [(-> & _)|(goats' & gd' & cd' & -> & Hgd' & Hcd' & Hgood)]; [done|].
    rewrite bind_Ok. apply IH; [| |done|done].
    + intros k Hk. apply Hps. by right.
    + apply elem_of_cons in Hin as [->|Hin].
      * rewrite Hx in Hxj. rewrite Hy in Hyj. injection Hxj as ->. injection Hyj as ->.
        destruct Hgood; [done | tauto].
      * by exists i, x, y.
Qed.

Lemma make_guess_out_of_range guess c i x y :
  Z.of_nat (length guess) = CODE_LENGTH → Z.of_nat (length c) = CODE_LENGTH →
  0 ≤ i < CODE_LENGTH →
  guess !! Z.to_nat i = Some x → c !! Z.to_nat i = Some y →
  x ≠ y → ¬ (0 ≤ x < DIGITS ∧ 0 ≤ y < DIGITS) →
  make_guess DIGITS CODE_LENGTH guess c = Fault.
Proof.
  intros Hg Hc Hi Hx Hy Hxy Hbad. unfold make_guess, for_range.
  rewrite count_loop_faults; [done| | |apply length_replicate|apply length_replicate].
  - intros j Hj%elem_of_seqZ. split; [lia|].
    split; apply lookup_lt_is_Some_2; lia.
  - exists i, x, y. split; [apply elem_of_seqZ; lia | done].
Qed.

End OutOfRange.

(** ** Rounds in which no worker has anything to score *)

Section Fallback.

Variables DIGITS CODE_LENGTH THREADS : Z.

Lemma worker_empty pool partition shared :
  size partition = 0 → 0 ≤ index partition → next_guess_score shared = 0 →
  worker DIGITS CODE_LENGTH pool partition shared = Ok shared.
Proof.
  intros Hsize Hindex Hscore. unfold worker.
  rewrite decide_True, bind_Ok, Hsize by done.
  change (Z.to_nat 0) with O. cbn [worker_loop].
  rewrite bind_Ok, Hscore. by rewrite decide_False by lia.
Qed.

Lemma workers_empty pool (partitions : list Partition) schedule shared :
  Forall (λ p, size p = 0 ∧ 0 ≤ index p) partitions →
  Forall (λ t : nat, (t < length partitions)%nat) schedule →
  next_guess_score shared = 0 →
  foldM (λ t sh, match partitions !! t with
                 | Some p => worker DIGITS CODE_LENGTH pool p sh
                 | None => Fault
                 end) schedule shared = Ok shared.
Proof.
  intros Hparts Hsched Hscore. induction Hsched as [|t schedule Ht _ IH]; [done|].
  rewrite foldM_cons.
  destruct (lookup_lt_is_Some_2 partitions t Ht) as [p Hp]. rewrite Hp.
  destruct (Forall_lookup_1 _ _ _ _ Hparts Hp) as [Hsize Hindex].
  by rewrite worker_empty, bind_Ok.
Qed.

Lemma main_round_fallback schedule secret pool shared guess cs :
  remaining pool = Ok cs → Forall (valid_code DIGITS CODE_LENGTH) cs →
  secret ∈ cs → guess ∈ cs → guess ≠ secret →
  Z.of_nat (length cs) ≤ THREADS →
  schedule_ok THREADS schedule → next_guess_score shared = 0 →
  ∃ offer pool' guess' rest,
    make_guess DIGITS CODE_LENGTH guess secret = Ok offer
    ∧ main_round DIGITS CODE_LENGTH THREADS schedule secret pool shared guess
      = Ok (Next offer pool' shared guess')
    ∧ remaining pool' = Ok (guess' :: rest)
    ∧ guess' :: rest = filter (survives DIGITS CODE_LENGTH guess offer) cs.
Proof.
  intros Hcs Hvalid Hsecret Hguess Hne Hlen Hsched Hscore.
  rewrite Forall_forall in Hvalid.
  assert (valid_code DIGITS CODE_LENGTH guess) as Hg by (by apply Hvalid).
  assert (valid_code DIGITS CODE_LENGTH secret) as Hs by (by apply Hvalid).
  rewrite <- Forall_forall in Hvalid.
  pose proof (make_guess_eval DIGITS CODE_LENGTH guess secret Hg Hs) as Hoffer.
  set (offer := mkOffer (exact_matches CODE_LENGTH guess secret)
                        (partial_matches DIGITS CODE_LENGTH guess secret)) in *.
  destruct (remove_impossible_codes_filter DIGITS CODE_LENGTH guess offer Hg pool cs
              Hcs Hvalid) as [_ Hsome].
  assert (secret ∈ filter (survives DIGITS CODE_LENGTH guess offer) cs) as Hin
      by (apply list_elem_of_filter; split; [split|]; done).
  pose proof (length_filter_lt (survives DIGITS CODE_LENGTH guess offer) cs guess Hguess)
    as Hshrink.
  destruct (filter (survives DIGITS CODE_LENGTH guess offer) cs) as [|guess' rest] eqn:Hf;
    [by apply elem_of_nil in Hin|].
  destruct Hsome as (pool' & Hrun & Hrem); [done|].
  exists offer, pool', guess', rest. split; [done|]. split; [|done].
  (* the list of the pruned pool *)
  pose proof Hrem as Hrem'.
  apply result_bind_Ok in Hrem' as (l & Hnodes & [= Hcodes]).
  apply walk_list_lseg in Hnodes as [Hseg _].
  assert (length l = S (length rest)) as Hl
      by (apply (f_equal length) in Hcodes; by rewrite length_fmap in Hcodes).
  destruct l as [|h l]; [done|].
  assert (Z.of_nat (length (h :: l)) < THREADS) as Hfew.
  { rewrite Hl. specialize (Hshrink ltac:(by intros [_ ?])). simpl in Hshrink. lia. }
  (* the round *)
  unfold main_round. rewrite Hoffer, bind_Ok. cbn [goats offer].
  rewrite decide_False.
  2:{ intros He. apply Hne. eapply exact_matches_all; [apply Hg | apply Hs | done]. }
  rewrite Hrun, bind_Ok. cbn [length] in Hl.
  replace (Z.of_nat (length (guess' :: rest))) with (Z.of_nat (length (h :: l)))
    by (simpl; lia).
  rewrite (make_partitions_eval pool' (h :: l) THREADS) by (done || lia).
  rewrite bind_Ok, workers_empty, bind_Ok; [| | |done].
  - rewrite decide_True by done.
    simpl in Hseg. destruct Hseg as (-> & nd & Hnd & _).
    unfold node_at. rewrite Hnd, bind_Ok. do 3 f_equal.
    simpl in Hcodes. injection Hcodes as <- _.
    unfold code_of. by rewrite Hnd.
  - apply Forall_forall. intros p (t & -> & _)%list_elem_of_fmap.
    unfold nth_partition. cbn [size index]. split; [|lia].
    apply Z.div_small. lia.
  - rewrite length_fmap, length_seq.
    eapply Forall_impl; [exact Hsched|]. intros t Ht. simpl in Ht. lia.
Qed.

(** The loop, from a pool that holds the secret and the guess. *)
Lemma main_loop_fallback secret :
  ∀ schedules pool guess cs,
    remaining pool = Ok cs → Forall (valid_code DIGITS CODE_LENGTH) cs →
    secret ∈ cs → guess ∈ cs →
    Z.of_nat (length cs) ≤ THREADS →
    (length cs ≤ length schedules)%nat →
    Forall (schedule_ok THREADS) schedules →
    ∃ trace,
      main_loop DIGITS CODE_LENGTH THREADS schedules secret pool (mkShared None 0) guess
      = Ok trace
      ∧ (1 ≤ length trace ≤ length cs)%nat
      ∧ last trace = Some (secret, mkOffer CODE_LENGTH 0).
Proof.
  induction schedules as [|schedule schedules IH];
    intros pool guess cs Hcs Hvalid Hsecret Hguess HT Hfuel Hsched.
  - destruct cs; [by apply elem_of_nil in Hguess | simpl in Hfuel; lia].
  - apply Forall_cons in Hsched as [Hs Hsched].
    assert (1 ≤ length cs)%nat
      by (destruct cs; [by apply elem_of_nil in Hguess | simpl; lia]).
    cbn [main_loop].
    destruct (decide (guess = secret)) as [->|Hne].
    + assert (valid_code DIGITS CODE_LENGTH secret) as Hv
          by (rewrite Forall_forall in Hvalid; by apply Hvalid).
      unfold main_round.
      destruct (offer_index_self DIGITS CODE_LENGTH secret Hv) as [-> _].
      rewrite bind_Ok. cbn [goats]. rewrite decide_True, bind_Ok by done.
      eexists. split; [done|]. split; [simpl; lia | done].
    + destruct (main_round_fallback schedule secret pool (mkShared None 0) guess cs)
        as (offer & pool' & guess' & rest & Hoffer & -> & Hrem & Hfilter); try done.
      rewrite bind_Ok.
      pose proof (length_filter_lt (survives DIGITS CODE_LENGTH guess offer) cs guess
                    Hguess ltac:(by intros [_ ?])) as Hshrink.
      rewrite <- Hfilter in Hshrink.
      destruct (IH pool' guess' (guess' :: rest)) as (trace & -> & Hlen & Hlast).
      * done.
      * rewrite Hfilter. apply Forall_forall. intros c [_ Hc]%list_elem_of_filter.
        rewrite Forall_forall in Hvalid. by apply Hvalid.
      * rewrite Hfilter. apply list_elem_of_filter. done.
      * left.
      * lia.
      * simpl in Hfuel. lia.
      * done.
      * rewrite bind_Ok. eexists. split; [done|]. split; [simpl; lia|].
        destruct trace; [simpl in Hlen; lia | done].
Qed.

End Fallback.

Lemma main_many_threads DIGITS CODE_LENGTH THREADS INITIAL_GUESS schedules secret_num :
  0 < DIGITS → 0 ≤ CODE_LENGTH →
  CODE_COUNT DIGITS CODE_LENGTH ≤ THREADS →
  0 ≤ secret_num < CODE_COUNT DIGITS CODE_LENGTH →
  0 ≤ INITIAL_GUESS < CODE_COUNT DIGITS CODE_LENGTH →
  CODE_COUNT DIGITS CODE_LENGTH ≤ Z.of_nat (length schedules) →
  Forall (schedule_ok THREADS) schedules →
  ∃ trace,
    main DIGITS CODE_LENGTH THREADS INITIAL_GUESS schedules secret_num = Ok trace
    ∧ 1 ≤ Z.of_nat (length trace) ≤ CODE_COUNT DIGITS CODE_LENGTH
    ∧ last trace = Some (code_at DIGITS CODE_LENGTH secret_num, mkOffer CODE_LENGTH 0).
Proof.
  intros HD HL HT Hsecret Hguess Hfuel Hsched. unfold main.
  destruct (code_at_spec DIGITS CODE_LENGTH HD secret_num Hsecret) as (-> & Hvs & _).
  destruct (code_at_spec DIGITS CODE_LENGTH HD INITIAL_GUESS Hguess) as (-> & Hvg & _).
  rewrite bind_Ok, (init_pool_eval DIGITS CODE_LENGTH HD HL), !bind_Ok.
  assert (length (universe DIGITS CODE_LENGTH)
          = Z.to_nat (CODE_COUNT DIGITS CODE_LENGTH)) as Hlen
      by (unfold universe; by rewrite length_fmap, length_seq).
  destruct (main_loop_fallback DIGITS CODE_LENGTH THREADS
              (code_at DIGITS CODE_LENGTH secret_num) schedules
              (mkPool (init_node_at DIGITS CODE_LENGTH
                       <$> seq 0 (Z.to_nat (CODE_COUNT DIGITS CODE_LENGTH))) (Some O))
              (code_at DIGITS CODE_LENGTH INITIAL_GUESS)
              (universe DIGITS CODE_LENGTH))
    as (trace & Hrun & Hl & Hlast).
  - apply (init_pool_remaining DIGITS CODE_LENGTH HD HL), init_pool_eval; done.
  - by apply universe_valid.
  - by apply universe_complete.
  - by apply universe_complete.
  - rewrite Hlen. lia.
  - rewrite Hlen. lia.
  - done.
  - exists trace. rewrite Hrun. split; [done|]. split; [lia | done].
Qed.

(** ** What [print_code] writes *)

Lemma pretty_digit d :
  0 ≤ d < 10 → pretty d = String (pretty_N_char (Z.to_N d)) "".
Proof.
  intros Hd.
  assert (d = 0 ∨ d = 1 ∨ d = 2 ∨ d = 3 ∨ d = 4 ∨ d = 5 ∨ d = 6 ∨ d = 7
          ∨ d = 8 ∨ d = 9) as Hcases by lia.
  repeat (destruct Hcases as [->|Hcases]; [reflexivity|]). by subst.
Qed.

Lemma digits_string_snoc c d :
  digits_string (c ++ [d])
  = digits_string c +:+ String (pretty_N_char (Z.to_N d)) "".
Proof. induction c as [|x c IH]; simpl; [done | by rewrite IH]. Qed.

Lemma digits_string_length c : String.length (digits_string c) = length c.
Proof. induction c as [|x c IH]; simpl; [done | by rewrite IH]. Qed.

Lemma print_code_prefix DIGITS CODE_LENGTH c (t : nat) :
  DIGITS ≤ 10 → Forall (λ x, 0 ≤ x < DIGITS) c → (t ≤ length c)%nat →
  foldM (print_digit DIGITS CODE_LENGTH c) (seqZ 0 (Z.of_nat t)) ""
  = Ok (digits_string (take t c)).
Proof.
  intros HD Hall. induction t as [|t IH]; intros Ht; [done|].
  destruct (lookup_lt_is_Some_2 c t) as [d Hd]; [lia|].
  pose proof (Forall_lookup_1 _ _ _ _ Hall Hd) as Hdr. simpl in Hdr.
  rewrite seqZ_S, foldM_app, IH, bind_Ok, Z.add_0_l by lia. cbn [foldM].
  unfold print_digit.
  rewrite (array_get_Ok c _ d), bind_Ok by (lia || by rewrite Nat2Z.id).
  rewrite decide_False, bind_Ok by lia.
  rewrite (take_S_r _ _ d), digits_string_snoc, pretty_digit by (done || lia).
  done.
Qed.

(** ** Rounds in which a worker has something to score *)

Lemma worker_candidate_faults DIGITS CODE_LENGTH pool cs l (h : nat) partition shared :
  remaining pool = Ok cs → Forall (valid_code DIGITS CODE_LENGTH) cs →
  pool_nodes pool = Ok l → h ∈ l →
  index partition = Z.of_nat h → 1 ≤ size partition →
  worker DIGITS CODE_LENGTH pool partition shared = Fault.
Proof.
  intros Hcs Hvalid Hl Hh Hindex Hsize. unfold worker.
  rewrite decide_True, bind_Ok, Hindex, Nat2Z.id by lia.
  destruct (Z.to_nat (size partition)) as [|n] eqn:Hn; [lia|].
  apply walk_list_lseg in Hl as Hseg. destruct Hseg as [Hseg _].
  destruct (lseg_lookup _ _ _ _ h Hseg Hh) as [nd Hnd].
  cbn [worker_loop]. unfold node_at. rewrite Hnd, bind_Ok.
  rewrite (score_guess_candidate_faults DIGITS CODE_LENGTH pool (code nd) cs);
    [done | done | done |].
  apply result_bind_Ok in Hcs as (l' & Hl' & [= <-]).
  rewrite Hl in Hl'. injection Hl' as <-.
  apply list_elem_of_fmap. exists h. split; [|done].
  unfold code_of. by rewrite Hnd.
Qed.

Lemma main_round_scoring_faults DIGITS CODE_LENGTH THREADS (t : nat) schedule
    secret pool shared guess cs :
  remaining pool = Ok cs → Forall (valid_code DIGITS CODE_LENGTH) cs →
  valid_code DIGITS CODE_LENGTH guess →
  secret ∈ cs → guess ≠ secret →
  1 ≤ THREADS → Z.of_nat t < THREADS →
  (∀ offer, make_guess DIGITS CODE_LENGTH guess secret = Ok offer →
            THREADS ≤ Z.of_nat (length (filter (survives DIGITS CODE_LENGTH guess offer) cs))) →
  main_round DIGITS CODE_LENGTH THREADS (t :: schedule) secret pool shared guess
  = Fault.
Proof.
  intros Hcs Hvalid Hg Hsecret Hne HT Ht Hmany.
  assert (valid_code DIGITS CODE_LENGTH secret) as Hs
      by (rewrite Forall_forall in Hvalid; by apply Hvalid).
  pose proof (make_guess_eval DIGITS CODE_LENGTH guess secret Hg Hs) as Hoffer.
  set (offer := mkOffer (exact_matches CODE_LENGTH guess secret)
                        (partial_matches DIGITS CODE_LENGTH guess secret)) in *.
  specialize (Hmany offer Hoffer).
  destruct (remove_impossible_codes_filter DIGITS CODE_LENGTH guess offer Hg pool cs
              Hcs Hvalid) as [_ Hsome].
  set (cs' := filter (survives DIGITS CODE_LENGTH guess offer) cs) in *.
  assert (Forall (valid_code DIGITS CODE_LENGTH) cs') as Hvalid'.
  { apply Forall_forall. intros c [_ Hc]%list_elem_of_filter.
    rewrite Forall_forall in Hvalid. by apply Hvalid. }
  destruct Hsome as (pool' & Hrun & Hrem).
  { intros Hnil. rewrite Hnil in Hmany. simpl in Hmany. lia. }
  pose proof Hrem as Hrem'.
  apply result_bind_Ok in Hrem' as (l & Hnodes & [= Hcodes]).
  pose proof Hnodes as Hseg. apply walk_list_lseg in Hseg as [Hseg _].
  assert (length l = length cs') as Hl
      by (rewrite <- Hcodes; by rewrite length_fmap).
  assert (l ≠ []) as Hnonempty by (intros ->; simpl in Hl; lia).
  unfold main_round. rewrite Hoffer, bind_Ok. cbn [goats offer].
  rewrite decide_False.
  2:{ intros He. apply Hne. eapply exact_matches_all; [apply Hg | apply Hs | done]. }
  rewrite Hrun, bind_Ok, <- Hl.
  rewrite (make_partitions_eval pool' l THREADS) by done.
  rewrite bind_Ok, foldM_cons.
  rewrite list_lookup_fmap, lookup_seq_lt by lia. cbn [fmap option_fmap option_map].
  change (0 + t)%nat with t.
  pose proof (share_bound pool' l THREADS Hseg Hnonempty HT t Ht) as Hbound.
  destruct (lookup_lt_is_Some_2 l (t * share l THREADS)%nat Hbound) as [h Hh].
  rewrite (worker_candidate_faults DIGITS CODE_LENGTH pool' cs' l h); try done.
  - apply list_elem_of_lookup. by eexists.
  - unfold nth_partition. cbn [index]. by rewrite Hh.
  - unfold nth_partition. cbn [size].
    apply Z.div_le_lower_bound; lia.
Qed.

(** * Further properties of the code *)

Ltac valid_codes_tac := repeat (constructor; [valid_code_tac|]); constructor.

(** X1. [make_guess] gives the same offer when guess and code change
    places. *)
Theorem make_guess_symmetric DIGITS CODE_LENGTH guess c :
  valid_code DIGITS CODE_LENGTH guess → valid_code DIGITS CODE_LENGTH c →
  make_guess DIGITS CODE_LENGTH guess c = make_guess DIGITS CODE_LENGTH c guess.
Proof.
  intros Hg Hc. rewrite !make_guess_eval by done.
  by rewrite exact_matches_sym, partial_matches_sym.
Qed.

Lemma make_guess_symmetric_witness :
  valid_code 10 4 [1; 1; 2; 3] ∧ valid_code 10 4 [1; 2; 1; 1]
  ∧ make_guess 10 4 [1; 1; 2; 3] [1; 2; 1; 1] = make_guess 10 4 [1; 2; 1; 1] [1; 1; 2; 3].
Proof.
  assert (valid_code 10 4 [1; 1; 2; 3]) as H1 by valid_code_tac.
  assert (valid_code 10 4 [1; 2; 1; 1]) as H2 by valid_code_tac.
  split; [exact H1|]. split; [exact H2|].
  exact (make_guess_symmetric 10 4 [1; 1; 2; 3] [1; 2; 1; 1] H1 H2).
Defined.

(** X2. [make_guess] on two codes of [CODE_LENGTH] symbols faults when, at a
    position where the two codes differ, one of the two symbols is outside
    [0, DIGITS): it is the index of a counter that does not exist. *)
Theorem make_guess_symbol_out_of_range DIGITS CODE_LENGTH guess c i x y :
  Z.of_nat (length guess) = CODE_LENGTH → Z.of_nat (length c) = CODE_LENGTH →
  0 ≤ i < CODE_LENGTH →
  guess !! Z.to_nat i = Some x → c !! Z.to_nat i = Some y →
  x ≠ y → ¬ (0 ≤ x < DIGITS ∧ 0 ≤ y < DIGITS) →
  make_guess DIGITS CODE_LENGTH guess c = Fault.
Proof. apply make_guess_out_of_range. Qed.

Lemma make_guess_symbol_out_of_range_witness :
  make_guess 10 2 [0; 3] [0; -5] = Fault.
Proof.
  apply (make_guess_symbol_out_of_range 10 2 [0; 3] [0; -5] 1 3 (-5));
    (reflexivity || lia).
Defined.

(** X3. For a positive base and a code length that is not negative,
    [int_to_code] faults on every number from [DIGITS ^ CODE_LENGTH] on: the
    digit that has no place is written before the start of the array. *)
Theorem int_to_code_too_large DIGITS CODE_LENGTH n :
  0 < DIGITS → 0 ≤ CODE_LENGTH → DIGITS ^ CODE_LENGTH ≤ n →
  int_to_code DIGITS CODE_LENGTH n = Fault.
Proof.
  intros HD HL Hn. unfold int_to_code, calloc.
  apply int_to_code_loop_overflow; [done | |by rewrite length_replicate].
  by rewrite Z2Nat.id.
Qed.

Lemma int_to_code_too_large_witness : int_to_code 10 5 123456 = Fault.
Proof. apply (int_to_code_too_large 10 5 123456); lia. Defined.

(** X4. For a positive base, a code of [CODE_LENGTH] digits in
    [0, DIGITS) has a value below [DIGITS ^ CODE_LENGTH], and [int_to_code]
    of this value is the code again. *)
Theorem int_to_code_of_value DIGITS CODE_LENGTH c :
  0 < DIGITS → valid_code DIGITS CODE_LENGTH c →
  0 ≤ code_to_int DIGITS c < DIGITS ^ CODE_LENGTH
  ∧ int_to_code DIGITS CODE_LENGTH (code_to_int DIGITS c) = Ok c.
Proof. intros HD Hc. by apply int_to_code_of_code. Qed.

Lemma int_to_code_of_value_witness :
  0 ≤ code_to_int 10 [0; 0; 1; 1; 2] < 10 ^ 5
  ∧ int_to_code 10 5 (code_to_int 10 [0; 0; 1; 1; 2]) = Ok [0; 0; 1; 1; 2].
Proof.
  apply (int_to_code_of_value 10 5 [0; 0; 1; 1; 2]); [lia | valid_code_tac].
Defined.

(** X5. For a positive base, a code length that is not negative and a
    number of codes [DIGITS ^ CODE_LENGTH] that fits an [int], the pool that
    [main] builds has as its remaining candidates the codes of the numbers
    [0] to [DIGITS ^ CODE_LENGTH - 1] in this order; these are
    [DIGITS ^ CODE_LENGTH] different codes, and they are exactly the
    sequences of [CODE_LENGTH] digits in [0, DIGITS). *)
Theorem init_pool_universe DIGITS CODE_LENGTH :
  0 < DIGITS → 0 ≤ CODE_LENGTH → DIGITS ^ CODE_LENGTH ≤ INT_MAX →
  ∃ pool,
    init_pool DIGITS CODE_LENGTH = Ok pool
    ∧ remaining pool = Ok (universe DIGITS CODE_LENGTH)
    ∧ Z.of_nat (length (universe DIGITS CODE_LENGTH)) = DIGITS ^ CODE_LENGTH
    ∧ NoDup (universe DIGITS CODE_LENGTH)
    ∧ ∀ c, c ∈ universe DIGITS CODE_LENGTH ↔ valid_code DIGITS CODE_LENGTH c.
Proof.
  intros HD HL _. eexists. split; [by apply init_pool_eval|].
  split; [apply (init_pool_remaining DIGITS CODE_LENGTH HD HL), init_pool_eval; done|].
  split.
  { unfold universe. rewrite length_fmap, length_seq.
    pose proof (CODE_COUNT_pos DIGITS CODE_LENGTH HD HL). unfold CODE_COUNT in *. lia. }
  split; [by apply universe_NoDup|].
  intros c. split; [|by apply universe_complete].
  pose proof (universe_valid DIGITS CODE_LENGTH HD) as Hall.
  rewrite Forall_forall in Hall. apply Hall.
Qed.

Lemma init_pool_universe_witness :
  ∃ pool,
    init_pool 2 2 = Ok pool
    ∧ remaining pool = Ok (universe 2 2)
    ∧ Z.of_nat (length (universe 2 2)) = 2 ^ 2
    ∧ NoDup (universe 2 2)
    ∧ ∀ c, c ∈ universe 2 2 ↔ valid_code 2 2 c.
Proof. apply (init_pool_universe 2 2); [lia | lia | by vm_compute]. Defined.

(** X6. When at least one remaining candidate gives the observed offer and
    is not the guess, [remove_impossible_codes] returns; the remaining
    candidates are then those of before that give the offer and are not the
    guess, in their order, and the value returned is their number. *)
Theorem prune_is_filter DIGITS CODE_LENGTH pool cs guess offer :
  remaining pool = Ok cs → Forall (valid_code DIGITS CODE_LENGTH) cs →
  valid_code DIGITS CODE_LENGTH guess →
  filter (survives DIGITS CODE_LENGTH guess offer) cs ≠ [] →
  ∃ pool',
    remove_impossible_codes DIGITS CODE_LENGTH pool guess offer
    = Ok (pool', Z.of_nat (length (filter (survives DIGITS CODE_LENGTH guess offer) cs)))
    ∧ remaining pool' = Ok (filter (survives DIGITS CODE_LENGTH guess offer) cs).
Proof.
  intros Hcs Hvalid Hg Hne.
  by apply (remove_impossible_codes_filter DIGITS CODE_LENGTH guess offer Hg pool cs).
Qed.

Lemma prune_is_filter_witness :
  ∃ pool',
    remove_impossible_codes 2 2 pool_d2_l2 [0; 0] (mkOffer 1 0)
    = Ok (pool', Z.of_nat (length (filter (survives 2 2 [0; 0] (mkOffer 1 0))
                                          [[0; 0]; [0; 1]; [1; 0]; [1; 1]])))
    ∧ remaining pool'
      = Ok (filter (survives 2 2 [0; 0] (mkOffer 1 0)) [[0; 0]; [0; 1]; [1; 0]; [1; 1]]).
Proof.
  apply (prune_is_filter 2 2 pool_d2_l2 [[0; 0]; [0; 1]; [1; 0]; [1; 1]] [0; 0]
           (mkOffer 1 0));
    [reflexivity | valid_codes_tac | valid_code_tac | by vm_compute].
Defined.

(** X7. When no remaining candidate gives the observed offer and is not the
    guess, [remove_impossible_codes] faults: after the loop [prev] is NULL
    and [prev->next] is written. *)
Theorem prune_without_survivor_faults DIGITS CODE_LENGTH pool cs guess offer :
  remaining pool = Ok cs → Forall (valid_code DIGITS CODE_LENGTH) cs →
  valid_code DIGITS CODE_LENGTH guess →
  filter (survives DIGITS CODE_LENGTH guess offer) cs = [] →
  remove_impossible_codes DIGITS CODE_LENGTH pool guess offer = Fault.
Proof.
  intros Hcs Hvalid Hg Hnil.
  by apply (remove_impossible_codes_filter DIGITS CODE_LENGTH guess offer Hg pool cs).
Qed.

Lemma prune_without_survivor_faults_witness :
  remove_impossible_codes 4 1 pool_d4 [1] (mkOffer 1 0) = Fault.
Proof.
  apply (prune_without_survivor_faults 4 1 pool_d4 [[1]; [2]; [3]] [1] (mkOffer 1 0));
    [reflexivity | valid_codes_tac | valid_code_tac | by vm_compute].
Defined.

(** X8. A secret that is among the remaining candidates and is not the guess
    survives the pruning with the offer of the guess against it: the call
    returns at least 1, and the secret is still a remaining candidate. *)
Theorem secret_is_never_pruned DIGITS CODE_LENGTH pool cs guess secret offer :
  remaining pool = Ok cs → Forall (valid_code DIGITS CODE_LENGTH) cs →
  valid_code DIGITS CODE_LENGTH guess →
  secret ∈ cs → secret ≠ guess →
  make_guess DIGITS CODE_LENGTH guess secret = Ok offer →
  ∃ pool' n cs',
    remove_impossible_codes DIGITS CODE_LENGTH pool guess offer = Ok (pool', n)
    ∧ remaining pool' = Ok cs' ∧ secret ∈ cs' ∧ 1 ≤ n ≤ Z.of_nat (length cs).
Proof. apply secret_survives. Qed.

Lemma secret_is_never_pruned_witness :
  ∃ pool' n cs',
    remove_impossible_codes 4 1 pool_d4 [1] (mkOffer 0 0) = Ok (pool', n)
    ∧ remaining pool' = Ok cs' ∧ [3] ∈ cs' ∧ 1 ≤ n ≤ Z.of_nat (length [[1]; [2]; [3]]).
Proof.
  apply (secret_is_never_pruned 4 1 pool_d4 [[1]; [2]; [3]] [1] [3] (mkOffer 0 0));
    [reflexivity | valid_codes_tac | valid_code_tac | | by vm_compute | reflexivity].
  do 2 right. left.
Defined.

(** X9. When [remove_impossible_codes] returns, every remaining candidate
    was one before, the guess is not among them, and the number returned is
    at most the number of candidates before; it is smaller when the guess
    was a candidate. *)
Theorem prune_shrinks DIGITS CODE_LENGTH pool cs guess offer pool' n :
  remaining pool = Ok cs → Forall (valid_code DIGITS CODE_LENGTH) cs →
  valid_code DIGITS CODE_LENGTH guess →
  remove_impossible_codes DIGITS CODE_LENGTH pool guess offer = Ok (pool', n) →
  ∃ cs',
    remaining pool' = Ok cs'
    ∧ n = Z.of_nat (length cs')
    ∧ (∀ c, c ∈ cs' → c ∈ cs)
    ∧ (guess ∉ cs')
    ∧ n ≤ Z.of_nat (length cs)
    ∧ (guess ∈ cs → n < Z.of_nat (length cs)).
Proof.
  intros Hcs Hvalid Hg Hrun.
  destruct (remove_impossible_codes_filter DIGITS CODE_LENGTH guess offer Hg pool cs
              Hcs Hvalid) as [Hnone Hsome].
  destruct (decide (filter (survives DIGITS CODE_LENGTH guess offer) cs = []))
    as [Hnil|Hne]; [by rewrite Hnone in Hrun|].
  destruct (Hsome Hne) as (pool1 & Hrun1 & Hrem). rewrite Hrun1 in Hrun.
  injection Hrun as -> <-.
  exists (filter (survives DIGITS CODE_LENGTH guess offer) cs).
  pose proof (length_filter (survives DIGITS CODE_LENGTH guess offer) cs).
  split; [done|]. split; [done|].
  split; [by intros c [_ ?]%list_elem_of_filter|].
  split; [by intros [[_ ?] _]%list_elem_of_filter|].
  split; [lia|]. intros Hin.
  pose proof (length_filter_lt (survives DIGITS CODE_LENGTH guess offer) cs guess Hin
                ltac:(by intros [_ ?])). lia.
Qed.

Lemma prune_shrinks_witness :
  ∃ cs',
    remaining pool_d4 = Ok cs'
    ∧ 3 = Z.of_nat (length cs')
    ∧ (∀ c, c ∈ cs' → c ∈ [[0]; [1]; [2]; [3]])
    ∧ ([0] ∉ cs')
    ∧ 3 ≤ Z.of_nat (length [[0]; [1]; [2]; [3]])
    ∧ ([0] ∈ [[0]; [1]; [2]; [3]] → 3 < Z.of_nat (length [[0]; [1]; [2]; [3]])).
Proof.
  apply (prune_shrinks 4 1
           (mkPool [mkNode [0] (Some 1%nat); mkNode [1] (Some 2%nat);
                    mkNode [2] (Some 3%nat); mkNode [3] None] (Some 0%nat))
           [[0]; [1]; [2]; [3]] [0] (mkOffer 0 0) pool_d4 3);
    [reflexivity | valid_codes_tac | valid_code_tac | reflexivity].
Defined.

(** X10. For two codes of [CODE_LENGTH] digits in [0, DIGITS), the loop of
    [remove_impossible_codes] that compares the current code with the guess
    sets [code_is_guess] to true if and only if the two codes are equal. *)
Theorem code_is_guess_decides DIGITS CODE_LENGTH guess c :
  valid_code DIGITS CODE_LENGTH guess → valid_code DIGITS CODE_LENGTH c →
  code_is_guess CODE_LENGTH guess c = Ok (bool_decide (guess = c)).
Proof. intros Hg Hc. by apply (code_is_guess_eval DIGITS). Qed.

Lemma code_is_guess_decides_witness :
  code_is_guess 3 [4; 0; 4] [4; 0; 7] = Ok (bool_decide ([4; 0; 4] = [4; 0; 7])).
Proof.
  apply (code_is_guess_decides 10 3 [4; 0; 4] [4; 0; 7]); valid_code_tac.
Defined.

(** X11. For two different codes of [CODE_LENGTH] digits in [0, DIGITS),
    the offer of one against the other has its place
    [goats * CODE_LENGTH + chickens] inside the table of
    [CODE_LENGTH * CODE_LENGTH] cells. *)
Theorem offer_index_in_table DIGITS CODE_LENGTH guess c :
  valid_code DIGITS CODE_LENGTH guess → valid_code DIGITS CODE_LENGTH c →
  guess ≠ c →
  ∃ offer,
    make_guess DIGITS CODE_LENGTH guess c = Ok offer
    ∧ 0 ≤ offer_index CODE_LENGTH offer < CODE_LENGTH * CODE_LENGTH.
Proof.
  intros Hg Hc Hne. eexists. split; [by apply make_guess_eval|].
  by apply (offer_index_other DIGITS).
Qed.

Lemma offer_index_in_table_witness :
  ∃ offer,
    make_guess 3 2 [0; 1] [1; 0] = Ok offer ∧ 0 ≤ offer_index 2 offer < 2 * 2.
Proof.
  apply (offer_index_in_table 3 2 [0; 1] [1; 0]); [valid_code_tac | valid_code_tac | done].
Defined.

(** X12. Scoring a guess that is one of the remaining candidates faults,
    whatever the pool: the offer of the guess against itself is counted in
    the cell [CODE_LENGTH * CODE_LENGTH], which the table does not have. *)
Theorem scoring_a_candidate_faults DIGITS CODE_LENGTH pool cs guess :
  remaining pool = Ok cs → Forall (valid_code DIGITS CODE_LENGTH) cs →
  guess ∈ cs →
  score_guess DIGITS CODE_LENGTH pool guess (calloc (CODE_LENGTH * CODE_LENGTH))
  = Fault.
Proof. apply score_guess_candidate_faults. Qed.

Lemma scoring_a_candidate_faults_witness :
  score_guess 2 2 pool_d2_l2 [1; 0] (calloc (2 * 2)) = Fault.
Proof.
  apply (scoring_a_candidate_faults 2 2 pool_d2_l2 [[0; 0]; [0; 1]; [1; 0]; [1; 1]]);
    [reflexivity | valid_codes_tac |].
  do 2 right. left.
Defined.

(** X13. The loop of the worker that reads [offer_results], run over a table
    of [n] cells from the start value [m], leaves every cell at 0 and
    yields the least of [m] and the nonzero cells: a value that is at most
    [m], at most every nonzero cell, and is [m] or one of the nonzero
    cells. *)
Theorem min_loop_clears_table (n m : Z) (table : list Z) :
  Z.of_nat (length table) = n →
  ∃ r,
    for_range n min_step (m, table) = Ok (r, calloc n)
    ∧ r ≤ m
    ∧ (∀ x, x ∈ table → x ≠ 0 → r ≤ x)
    ∧ (r = m ∨ (r ∈ table ∧ r ≠ 0)).
Proof.
  intros <-. destruct (min_loop_prefix m table (length table)) as (r & Hrun & H);
    [done|].
  exists r. unfold for_range, calloc. rewrite Hrun.
  rewrite drop_all, app_nil_r, Nat2Z.id, firstn_all in *. done.
Qed.

Lemma min_loop_clears_table_witness :
  ∃ r,
    for_range 4 min_step (16, [0; 3; 0; 2]) = Ok (r, calloc 4)
    ∧ r ≤ 16
    ∧ (∀ x, x ∈ [0; 3; 0; 2] → x ≠ 0 → r ≤ x)
    ∧ (r = 16 ∨ (r ∈ [0; 3; 0; 2] ∧ r ≠ 0)).
Proof. apply (min_loop_clears_table 4 16 [0; 3; 0; 2]). reflexivity. Defined.

(** X14. For [M] candidates and [T] threads, [M] not negative and [T] at
    least 1, every thread gets a partition of size [M / T], the last thread
    too, and the sizes sum to [M] less the remainder of [M] by [T]. *)
Theorem partition_sizes_equal M T :
  0 ≤ M → 1 ≤ T →
  (∀ thread, 0 ≤ thread < T → partition_size M T thread = M `div` T)
  ∧ sumZ (partition_size M T <$> seqZ 0 T) = M - M `mod` T.
Proof.
  intros HM HT. split; [by apply partition_size_eq | by apply partition_sizes_sum].
Qed.

Lemma partition_sizes_equal_witness :
  (∀ thread, 0 ≤ thread < 3 → partition_size 11 3 thread = 11 `div` 3)
  ∧ sumZ (partition_size 11 3 <$> seqZ 0 3) = 11 - 11 `mod` 3.
Proof. apply (partition_sizes_equal 11 3); lia. Defined.

(** X15. For a pool whose list holds the nodes [l], not empty, and [T]
    threads, [T] at least 1, [main] makes [T] partitions; the partition of
    thread [t] has the size [length l / T] and starts at the node that is
    [t] times this size into the list. *)
Theorem partitions_follow_the_list pool l T :
  pool_nodes pool = Ok l → l ≠ [] → 1 ≤ T →
  ∃ partitions,
    make_partitions pool (Z.of_nat (length l)) T = Ok partitions
    ∧ length partitions = Z.to_nat T
    ∧ ∀ t : nat, Z.of_nat t < T →
        ∃ h, l !! (t * Z.to_nat (Z.of_nat (length l) `div` T))%nat = Some h
             ∧ partitions !! t
               = Some (mkPartition (Z.of_nat h) (Z.of_nat (length l) `div` T)).
Proof.
  intros [Hseg _]%walk_list_lseg Hne HT.
  exists (nth_partition l T <$> seq 0 (Z.to_nat T)).
  split; [by apply make_partitions_eval|].
  split; [by rewrite length_fmap, length_seq|].
  intros t Ht. pose proof (share_bound pool l T Hseg Hne HT t Ht) as Hb.
  destruct (lookup_lt_is_Some_2 l _ Hb) as [h Hh]. exists h. split; [done|].
  rewrite list_lookup_fmap, lookup_seq_lt by lia. simpl.
  unfold nth_partition. by rewrite Hh.
Qed.

Lemma partitions_follow_the_list_witness :
  ∃ partitions,
    make_partitions pool_d6 (Z.of_nat (length [1; 2; 3; 4; 5]%nat)) 2 = Ok partitions
    ∧ length partitions = Z.to_nat 2
    ∧ ∀ t : nat, Z.of_nat t < 2 →
        ∃ h, [1; 2; 3; 4; 5]%nat
               !! (t * Z.to_nat (Z.of_nat (length [1; 2; 3; 4; 5]%nat) `div` 2))%nat
             = Some h
             ∧ partitions !! t
               = Some (mkPartition (Z.of_nat h)
                                   (Z.of_nat (length [1; 2; 3; 4; 5]%nat) `div` 2)).
Proof.
  apply (partitions_follow_the_list pool_d6 [1; 2; 3; 4; 5]%nat 2);
    [reflexivity | done | lia].
Defined.

(** X16. A round whose guess is not the secret, played on a pool that holds
    both and has no more candidates than there are threads, scores nothing:
    every partition is empty, no worker changes the shared result, and the
    next guess is the first candidate that remains after the pruning. *)
Theorem round_falls_back_on_first_candidate DIGITS CODE_LENGTH THREADS schedule
    secret pool shared guess cs :
  remaining pool = Ok cs → Forall (valid_code DIGITS CODE_LENGTH) cs →
  secret ∈ cs → guess ∈ cs → guess ≠ secret →
  Z.of_nat (length cs) ≤ THREADS →
  schedule_ok THREADS schedule → next_guess_score shared = 0 →
  ∃ offer pool' guess' rest,
    make_guess DIGITS CODE_LENGTH guess secret = Ok offer
    ∧ main_round DIGITS CODE_LENGTH THREADS schedule secret pool shared guess
      = Ok (Next offer pool' shared guess')
    ∧ remaining pool' = Ok (guess' :: rest)
    ∧ guess' :: rest = filter (survives DIGITS CODE_LENGTH guess offer) cs.
Proof. apply main_round_fallback. Qed.

Lemma round_falls_back_on_first_candidate_witness :
  ∃ offer pool' guess' rest,
    make_guess 2 2 [0; 0] [1; 0] = Ok offer
    ∧ main_round 2 2 5 [3; 0; 4; 1; 2]%nat [1; 0] pool_d2_l2 (mkShared None 0) [0; 0]
      = Ok (Next offer pool' (mkShared None 0) guess')
    ∧ remaining pool' = Ok (guess' :: rest)
    ∧ guess' :: rest
      = filter (survives 2 2 [0; 0] offer) [[0; 0]; [0; 1]; [1; 0]; [1; 1]].
Proof.
  apply (round_falls_back_on_first_candidate 2 2 5 [3; 0; 4; 1; 2]%nat [1; 0]
           pool_d2_l2 (mkShared None 0) [0; 0] [[0; 0]; [0; 1]; [1; 0]; [1; 1]]);
    [reflexivity | valid_codes_tac | | left | done | simpl; lia
     | repeat (constructor; [simpl; lia|]); constructor | reflexivity].
  do 2 right. left.
Defined.

(** X17. A round whose guess is not the secret and whose pruning leaves at
    least as many candidates as there are threads faults: the first worker
    to run scores the first candidate of its partition against itself. *)
Theorem round_with_scoring_faults DIGITS CODE_LENGTH THREADS (t : nat) schedule
    secret pool shared guess cs offer :
  remaining pool = Ok cs → Forall (valid_code DIGITS CODE_LENGTH) cs →
  valid_code DIGITS CODE_LENGTH guess →
  secret ∈ cs → guess ≠ secret →
  1 ≤ THREADS → Z.of_nat t < THREADS →
  make_guess DIGITS CODE_LENGTH guess secret = Ok offer →
  THREADS ≤ Z.of_nat (length (filter (survives DIGITS CODE_LENGTH guess offer) cs)) →
  main_round DIGITS CODE_LENGTH THREADS (t :: schedule) secret pool shared guess
  = Fault.
Proof.
  intros Hcs Hvalid Hg Hsecret Hne HT Ht Hoffer Hmany.
  apply (main_round_scoring_faults DIGITS CODE_LENGTH THREADS t schedule secret pool
           shared guess cs); try done.
  intros offer' Hoffer'. rewrite Hoffer in Hoffer'. by injection Hoffer' as <-.
Qed.

Lemma round_with_scoring_faults_witness :
  main_round 2 2 2 [1; 0]%nat [1; 0] pool_d2_l2 (mkShared None 0) [0; 0] = Fault.
Proof.
  apply (round_with_scoring_faults 2 2 2 1 [0%nat] [1; 0] pool_d2_l2 (mkShared None 0)
           [0; 0] [[0; 0]; [0; 1]; [1; 0]; [1; 1]] (mkOffer 1 0));
    [reflexivity | valid_codes_tac | valid_code_tac | | done | lia | simpl; lia
     | reflexivity | vm_compute; done].
  do 2 right. left.
Defined.

(** X18. With a positive base, with at least as many threads as there are
    codes, and with the secret and the first guess both below
    [DIGITS ^ CODE_LENGTH], [main] runs without a fault, plays at most
    [DIGITS ^ CODE_LENGTH] guesses, and the last guess it prints is the
    secret, with [CODE_LENGTH] goats and no chicken; this holds whatever
    the order of the workers in each round. *)
Theorem session_with_many_threads DIGITS CODE_LENGTH THREADS INITIAL_GUESS
    schedules secret_num :
  0 < DIGITS → 0 ≤ CODE_LENGTH →
  CODE_COUNT DIGITS CODE_LENGTH ≤ THREADS →
  0 ≤ secret_num < CODE_COUNT DIGITS CODE_LENGTH →
  0 ≤ INITIAL_GUESS < CODE_COUNT DIGITS CODE_LENGTH →
  CODE_COUNT DIGITS CODE_LENGTH ≤ Z.of_nat (length schedules) →
  Forall (schedule_ok THREADS) schedules →
  ∃ trace,
    main DIGITS CODE_LENGTH THREADS INITIAL_GUESS schedules secret_num = Ok trace
    ∧ 1 ≤ Z.of_nat (length trace) ≤ CODE_COUNT DIGITS CODE_LENGTH
    ∧ last trace = Some (code_at DIGITS CODE_LENGTH secret_num, mkOffer CODE_LENGTH 0).
Proof. apply main_many_threads. Qed.

Lemma session_with_many_threads_witness :
  ∃ trace,
    main 2 1 5 0 [[0; 1; 2; 3; 4]; [4; 3; 2; 1; 0]]%nat 1 = Ok trace
    ∧ 1 ≤ Z.of_nat (length trace) ≤ CODE_COUNT 2 1
    ∧ last trace = Some (code_at 2 1 1, mkOffer 1 0).
Proof.
  apply (session_with_many_threads 2 1 5 0 [[0; 1; 2; 3; 4]; [4; 3; 2; 1; 0]]%nat 1);
    [lia | lia | by vm_compute | by vm_compute | by vm_compute | by vm_compute |].
  repeat (constructor; [repeat (constructor; [simpl; lia|]); constructor|]).
  constructor.
Defined.

(** X19. For a base of at most 10, [print_code] writes a code of
    [CODE_LENGTH] digits in [0, DIGITS) as [CODE_LENGTH] characters, the
    decimal digit of each symbol in order, with no dash between them. *)
Theorem print_code_digits DIGITS CODE_LENGTH c :
  DIGITS ≤ 10 → valid_code DIGITS CODE_LENGTH c →
  print_code DIGITS CODE_LENGTH c = Ok (digits_string c)
  ∧ Z.of_nat (String.length (digits_string c)) = CODE_LENGTH.
Proof.
  intros HD [Hlen Hall]. unfold print_code, for_range. rewrite <- Hlen.
  rewrite print_code_prefix, firstn_all by done.
  by rewrite digits_string_length.
Qed.

Lemma print_code_digits_witness :
  print_code 10 5 [0; 0; 1; 1; 2] = Ok (digits_string [0; 0; 1; 1; 2])
  ∧ Z.of_nat (String.length (digits_string [0; 0; 1; 1; 2])) = 5.
Proof. apply (print_code_digits 10 5 [0; 0; 1; 1; 2]); [lia | valid_code_tac]. Defined.

(** ** Examples of the output *)

Example print_code_decimal : print_code 10 5 [0; 0; 1; 1; 2] = Ok "00112".
Proof. reflexivity. Qed.

(** In a base above 10 the symbols are separated by dashes. *)
Example print_code_dashes : print_code 16 3 [10; 0; 15] = Ok "10-0-15".
Proof. reflexivity. Qed.

(** The session of the smallest puzzle with the default five threads. *)
Example main_two_codes :
  main 2 1 5 0 [[0; 1; 2; 3; 4]; [0; 1; 2; 3; 4]]%nat 1
  = Ok [([0], mkOffer 0 0); ([1], mkOffer 1 0)].
Proof. vm_compute. reflexivity. Qed.
